(** * terraform-cleaner: usage analysis of Terraform modules

    A shallow embedding of [terraform/main.go] and the properties of its
    usage analysis: how references to variables, locals, child modules and
    data lookups are counted, how reports are filtered and displayed, how
    module sources are decomposed and how module files are loaded.

    Conventions.
    - Go strings are [string]s, one [ascii] per character.  Go's [regexp]
      package reads its input one UTF-8 code point at a time; on ASCII text
      a code point is a byte, and this is the reading used throughout.
    - Go [int] values are in [Z]; they are lengths of slices and maps here
      and stay far from the 64-bit bounds.
    - Go maps are reference values: a map lives in a heap of maps and a
      variable or struct field of map type holds its address.
    - A run-time panic is an explicit outcome of the embedding. *)

From Stdlib Require Import ZArith Ascii String.
From stdpp Require Import base option list gmap strings pretty.
From Equations Require Import Equations.


(** ** Characters and strings *)

Definition dq : string := String (ascii_of_nat 34) EmptyString.
Definition nl : string := String (ascii_of_nat 10) EmptyString.

Definition in_range (lo hi c : ascii) : bool :=
  (nat_of_ascii lo <=? nat_of_ascii c)%nat && (nat_of_ascii c <=? nat_of_ascii hi)%nat.

Definition in_ranges (rs : list (ascii * ascii)) (c : ascii) : bool :=
  existsb (fun r => in_range r.1 r.2 c) rs.

(** [0-9A-Za-z_], the word characters of [\w] and [\W]. *)
Definition word_ranges : list (ascii * ascii) :=
  [("0", "9"); ("A", "Z"); ("_", "_"); ("a", "z")]%char.
Definition digit_ranges : list (ascii * ascii) := [("0", "9")]%char.
(** [\t\n\f\r ], the characters of [\s]. *)
Definition space_ranges : list (ascii * ascii) :=
  [(ascii_of_nat 9, ascii_of_nat 10); (ascii_of_nat 12, ascii_of_nat 13);
   (" ", " ")]%char.

Definition is_word_char (c : ascii) : bool := in_ranges word_ranges c.

Fixpoint drop_string (n : nat) (s : string) : string :=
  match n, s with
  | O, _ => s
  | S n', String _ s' => drop_string n' s'
  | S _, EmptyString => EmptyString
  end.

(** [s[i:j]] for [i <= j <= len(s)]. *)
Definition slice (s : string) (i j : nat) : string := substring i (j - i) s.

(** ** Go's [regexp] package, the fragment used by the program

    Patterns are parsed from their text, as [regexp.MustCompile] does, into
    a sequence of nodes.  The fragment covers literals, [.], the escapes
    [\W \w \D \d \S \s] and escaped punctuation, bracket classes made of
    characters and ranges, capturing groups and the greedy repetitions
    [* + ?].  [Compile] answers [None] for a pattern Go rejects and for
    one that uses syntax outside this fragment (alternation, anchors,
    counted or lazy repetition, flags, negated or escaped bracket items). *)

Module Regexp.

#[warnings="-register-all"]
Inductive Node : Type :=
| Lit (c : ascii)
| AnyCharNotNL
| CharClass (negated : bool) (ranges : list (ascii * ascii))
| Capture (idx : nat) (sub : list Node)
| Star (sub : Node)
| Plus (sub : Node)
| Quest (sub : Node).

Record Regexp : Type := mkRegexp { prog : list Node; numCap : nat }.

(** *** Parsing *)

Inductive Kind : Type :=
| KLit | KDot | KBackslash | KOpen | KClose | KStar | KPlus | KQuest
| KBracket | KOther.

(** The characters with a meaning of their own in a pattern; they are the
    ones [regexp.QuoteMeta] escapes: [\.+*?()|[]{}^$]. *)
Definition kind_of (c : ascii) : Kind :=
  if Ascii.eqb c "." then KDot
  else if Ascii.eqb c "\" then KBackslash
  else if Ascii.eqb c "(" then KOpen
  else if Ascii.eqb c ")" then KClose
  else if Ascii.eqb c "*" then KStar
  else if Ascii.eqb c "+" then KPlus
  else if Ascii.eqb c "?" then KQuest
  else if Ascii.eqb c "[" then KBracket
  else if Ascii.eqb c "]" || Ascii.eqb c "{" || Ascii.eqb c "}"
          || Ascii.eqb c "|" || Ascii.eqb c "^" || Ascii.eqb c "$" then KOther
  else KLit.

Definition is_meta (c : ascii) : bool :=
  match kind_of c with KLit => false | _ => true end.

Definition is_alnum (c : ascii) : bool :=
  in_ranges [("0", "9"); ("A", "Z"); ("a", "z")]%char c.

(** What follows a backslash. *)
Definition escape (c : ascii) : option Node :=
  if Ascii.eqb c "W" then Some (CharClass true word_ranges)
  else if Ascii.eqb c "w" then Some (CharClass false word_ranges)
  else if Ascii.eqb c "D" then Some (CharClass true digit_ranges)
  else if Ascii.eqb c "d" then Some (CharClass false digit_ranges)
  else if Ascii.eqb c "S" then Some (CharClass true space_ranges)
  else if Ascii.eqb c "s" then Some (CharClass false space_ranges)
  else if is_alnum c || (128 <=? nat_of_ascii c)%nat then None
  else Some (Lit c).

Definition is_repeat (n : Node) : bool :=
  match n with Star _ | Plus _ | Quest _ => true | _ => false end.

(** A repetition operator applies to the node before it. *)
Definition repeat (op : Node -> Node) (cur : list Node) : option (list Node) :=
  match cur with
  | n :: cur' => if is_repeat n then None else Some (op n :: cur')
  | [] => None
  end.

(** An open group: its index and the nodes read before it, last first. *)
Record Frame : Type := mkFrame { fr_idx : nat; fr_outer : list Node }.

(** One pass over the pattern.  [cur] holds the nodes of the sequence being
    read, last first; [cls] is [Some ranges] inside a bracket class. *)
Fixpoint parse (p : string) (stack : list Frame) (cur : list Node) (ncap : nat)
    (cls : option (list (ascii * ascii))) {struct p} : option Regexp :=
  match cls with
  | Some rs =>
      match p with
      | EmptyString => None
      | String c p1 =>
          if Ascii.eqb c "]" then
            match rs with
            | [] => None
            | _ => parse p1 stack (CharClass false (rev rs) :: cur) ncap None
            end
          else if Ascii.eqb c "^" || Ascii.eqb c "\" || Ascii.eqb c "["
                  || Ascii.eqb c "-" then None
          else
            match p1 with
            | String d (String hi p3) =>
                if Ascii.eqb d "-" then
                  if Ascii.eqb hi "]" || Ascii.eqb hi "\" || Ascii.eqb hi "[" then None
                  else if (nat_of_ascii c <=? nat_of_ascii hi)%nat
                  then parse p3 stack cur ncap (Some ((c, hi) :: rs))
                  else None
                else parse p1 stack cur ncap (Some ((c, c) :: rs))
            | _ => parse p1 stack cur ncap (Some ((c, c) :: rs))
            end
      end
  | None =>
      match p with
      | EmptyString =>
          match stack with
          | [] => Some (mkRegexp (rev cur) ncap)
          | _ => None
          end
      | String c p1 =>
          match kind_of c with
          | KLit => parse p1 stack (Lit c :: cur) ncap None
          | KDot => parse p1 stack (AnyCharNotNL :: cur) ncap None
          | KBackslash =>
              match p1 with
              | EmptyString => None
              | String e p2 =>
                  match escape e with
                  | Some n => parse p2 stack (n :: cur) ncap None
                  | None => None
                  end
              end
          | KOpen =>
              match p1 with
              | String "?" _ => None
              | _ => parse p1 (mkFrame (S ncap) cur :: stack) [] (S ncap) None
              end
          | KClose =>
              match stack with
              | fr :: stack' =>
                  parse p1 stack' (Capture (fr_idx fr) (rev cur) :: fr_outer fr) ncap None
              | [] => None
              end
          | KStar => match repeat Star cur with
                     | Some cur' => parse p1 stack cur' ncap None
                     | None => None
                     end
          | KPlus => match repeat Plus cur with
                     | Some cur' => parse p1 stack cur' ncap None
                     | None => None
                     end
          | KQuest => match repeat Quest cur with
                      | Some cur' => parse p1 stack cur' ncap None
                      | None => None
                      end
          | KBracket => parse p1 stack cur ncap (Some [])
          | KOther => None
          end
      end
  end.

Definition Compile (pattern : string) : option Regexp := parse pattern [] [] 0 None.

(** *** Matching

    Leftmost-first matching by backtracking: a repetition first tries one
    more round and gives a round back only when the rest fails.  Positions
    are offsets in the searched string. *)

Definition Caps : Type := list (nat * (nat * nat)).

Fixpoint cap_lookup (i : nat) (caps : Caps) : option (nat * nat) :=
  match caps with
  | [] => None
  | (j, se) :: caps' => if (i =? j)%nat then Some se else cap_lookup i caps'
  end.

Section Exec.
Context {R : Type}.
Abbreviation Cont := (string -> nat -> Caps -> option R).

Definition step (ok : ascii -> bool) (s : string) (pos : nat) (caps : Caps)
    (k : Cont) : option R :=
  match s with
  | String c s' => if ok c then k s' (S pos) caps else None
  | EmptyString => None
  end.

Definition orelse (a b : option R) : option R :=
  match a with Some r => Some r | None => b end.

Fixpoint exec (n : Node) (s : string) (pos : nat) (caps : Caps) (k : Cont)
    {struct n} : option R :=
  let rounds (sub : Node) :=
    fix rounds (fuel : nat) (s : string) (pos : nat) (caps : Caps) : option R :=
      match fuel with
      | O => k s pos caps
      | S fuel' =>
          orelse
            (exec sub s pos caps (fun s' pos' caps' =>
               if (pos' =? pos)%nat then None else rounds fuel' s' pos' caps'))
            (k s pos caps)
      end in
  match n with
  | Lit c => step (Ascii.eqb c) s pos caps k
  | AnyCharNotNL => step (fun c => negb (Ascii.eqb c (ascii_of_nat 10))) s pos caps k
  | CharClass neg rs => step (fun c => xorb neg (in_ranges rs c)) s pos caps k
  | Capture idx sub =>
      (fix seq (ns : list Node) (s : string) (p : nat) (caps : Caps) (k : Cont)
         : option R :=
         match ns with
         | [] => k s p caps
         | n' :: ns' => exec n' s p caps (fun s' p' caps' => seq ns' s' p' caps' k)
         end)
        sub s pos caps (fun s' p' caps' => k s' p' ((idx, (pos, p')) :: caps'))
  | Star sub => rounds sub (S (String.length s)) s pos caps
  | Plus sub =>
      exec sub s pos caps (fun s' pos' caps' =>
        rounds sub (S (String.length s')) s' pos' caps')
  | Quest sub => orelse (exec sub s pos caps k) (k s pos caps)
  end.

Fixpoint exec_seq (ns : list Node) (s : string) (pos : nat) (caps : Caps)
    (k : Cont) : option R :=
  match ns with
  | [] => k s pos caps
  | n :: ns' => exec n s pos caps (fun s' pos' caps' => exec_seq ns' s' pos' caps' k)
  end.
End Exec.

(** A match of the whole expression that starts at [pos], where [s] is the
    input from [pos] on: its end offset and the groups. *)
Definition match_at (re : Regexp) (s : string) (pos : nat) : option (nat * Caps) :=
  exec_seq (prog re) s pos [] (fun _ e caps => Some (e, caps)).

(** The leftmost match in [s], searched from offset [pos] on. *)
Fixpoint search (re : Regexp) (s : string) (pos : nat) : option (nat * (nat * Caps)) :=
  match match_at re s pos with
  | Some (e, caps) => Some (pos, (e, caps))
  | None =>
      match s with
      | String _ s' => search re s' (S pos)
      | EmptyString => None
      end
  end.

(** [re.FindStringSubmatch(s)]: the text of the leftmost match and of its
    groups (empty for a group that took no part), or the empty slice. *)
Definition FindStringSubmatch (re : Regexp) (s : string) : list string :=
  match search re s 0 with
  | Some (b, (e, caps)) =>
      slice s b e ::
      map (fun i => match cap_lookup i caps with
                    | Some (gb, ge) => slice s gb ge
                    | None => EmptyString
                    end) (seq 1 (numCap re))
  | None => []
  end.

(** [re.FindAllStringIndex(s, -1)]: the successive non-overlapping matches
    as pairs of offsets.  After a match the search resumes at its end; an
    empty match moves on by one character and is dropped when it touches
    the end of the match before it.  [skip] counts the characters still
    covered by the last match. *)
Fixpoint find_all (re : Regexp) (s : string) (pos skip : nat) (prevEnd : option nat)
    {struct s} : list (nat * nat) :=
  match skip with
  | S skip' =>
      match s with
      | String _ s' => find_all re s' (S pos) skip' prevEnd
      | EmptyString => []
      end
  | O =>
      match match_at re s pos with
      | Some (e, _) =>
          let rest :=
            match s with
            | String _ s' => find_all re s' (S pos) (e - pos - 1) (Some e)
            | EmptyString => []
            end in
          if (e =? pos)%nat && bool_decide (prevEnd = Some pos) then rest
          else (pos, e) :: rest
      | None =>
          match s with
          | String _ s' => find_all re s' (S pos) 0 prevEnd
          | EmptyString => []
          end
      end
  end.

Definition FindAllStringIndex (re : Regexp) (s : string) : list (nat * nat) :=
  find_all re s 0 0 None.

End Regexp.

(** ** Run-time model: panics, the heap of maps, standard output *)

Inductive Abort : Type :=
| IndexOutOfRange      (* a slice indexed past its length *)
| PatternNotCompiled   (* [regexp.MustCompile] on a pattern [Compile] refuses *)
| NilDereference       (* a method called through a nil pointer *)
| NilMapAssignment     (* a store to a nil map *).

Inductive result (A : Type) : Type :=
| Ok (a : A)
| Panic (why : Abort).
Arguments Ok {A} a.
Arguments Panic {A} why.

Abbreviation loc := positive.
Abbreviation GoMap := (gmap string Z).

Record World : Type := mkWorld {
  maps : gmap loc GoMap;     (* the maps allocated so far *)
  stdout : list string       (* what was printed, one item per [Printf] *)
}.

Definition Go (A : Type) : Type := World -> result (A * World).

#[global] Instance Go_ret : MRet Go := fun A a w => Ok (a, w).
#[global] Instance Go_bind : MBind Go := fun A B f c w =>
  match c w with
  | Ok (a, w') => f a w'
  | Panic why => Panic why
  end.

Definition lift {A : Type} (r : result A) : Go A := fun w =>
  match r with
  | Ok a => Ok (a, w)
  | Panic why => Panic why
  end.

(** [map[string]int{}] *)
Definition NewMap : Go loc := fun w =>
  let l := fresh (dom (maps w)) in
  Ok (l, mkWorld (<[l := ∅]> (maps w)) (stdout w)).

(** A map of the heap is read and updated in place.  A location the heap
    does not hold stands for a nil map: Go reads it as an empty map and
    panics on a store to it. *)
Definition on_map {A : Type} (l : loc) (f : GoMap -> A * GoMap) (nil : result A)
    : Go A := fun w =>
  match maps w !! l with
  | Some mp => let '(a, mp') := f mp in Ok (a, mkWorld (<[l := mp']> (maps w)) (stdout w))
  | None => lift nil w
  end.

(** [m[k] = v] *)
Definition MapStore (l : loc) (k : string) (v : Z) : Go unit :=
  on_map l (fun mp => (tt, <[k := v]> mp)) (Panic NilMapAssignment).
(** [delete(m, k)] *)
Definition MapDelete (l : loc) (k : string) : Go unit :=
  on_map l (fun mp => (tt, delete k mp)) (Ok tt).
(** [len(m)] *)
Definition MapLen (l : loc) : Go Z :=
  on_map l (fun mp => (Z.of_nat (size mp), mp)) (Ok 0%Z).
(** The entries a [range] over the map starts from, in an order of the
    runtime's choosing (here the order of [map_to_list]). *)
Definition MapEntries (l : loc) : Go (list (string * Z)) :=
  on_map l (fun mp => (map_to_list mp, mp)) (Ok []).

Definition Printf (line : string) : Go unit := fun w =>
  Ok (tt, mkWorld (maps w) (stdout w ++ [line])).

(** [xs[i]] *)
Definition index {A : Type} (xs : list A) (i : nat) : result A :=
  match xs !! i with
  | Some x => Ok x
  | None => Panic IndexOutOfRange
  end.

Fixpoint for_each {A : Type} (xs : list A) (body : A -> Go unit) : Go unit :=
  match xs with
  | [] => mret tt
  | x :: xs' => body x ;; for_each xs' body
  end.

(** ** The parsed file, as [hclwrite] hands it over *)

Inductive TokenType : Type :=
| TokenOQuote | TokenQuotedLit | TokenCQuote
| TokenIdent | TokenNumberLit | TokenDot | TokenOBrack | TokenCBrack
| TokenOParen | TokenCParen | TokenOBrace | TokenCBrace | TokenComma
| TokenTemplateInterp | TokenTemplateSeqEnd | TokenOHeredoc | TokenCHeredoc
| TokenStringLit | TokenNewline | TokenOtherType (code : N).

Record Token : Type := mkToken { tok_Type : TokenType; tok_Bytes : string }.

(** An attribute, through [a.Expr().BuildTokens(nil)]. *)
Record Attribute : Type := mkAttribute { attr_Tokens : list Token }.

Record Block : Type := mkBlock {
  blk_Type : string;
  blk_Labels : list string;
  blk_Attributes : gmap string Attribute   (* [block.Body().Attributes()] *)
}.

Record File : Type := mkFile {
  file_Bytes : string;          (* [f.Bytes()], the source text *)
  file_Blocks : list Block      (* [f.Body().Blocks()], in source order *)
}.

(** ** The program *)

Abbreviation error := string (only parsing).

Record ModuleUsage : Type := mkModuleUsage {
  Path : string;
  Variables : loc;
  Locals : loc;
  Modules : loc;
  DataBlocks : loc;
  file : option File
}.

Definition countPattern (content pattern : string) : result Z :=
  match Regexp.Compile pattern with
  | Some regex =>
      let matches := Regexp.FindAllStringIndex regex content in
      Ok (Z.of_nat (length matches))
  | None => Panic PatternNotCompiled
  end.

Definition processBlock (m : ModuleUsage) (bodyStr : string) (block : Block) : Go unit :=
  let blockType := blk_Type block in
  (if decide (blockType = "data") then
     data_type ← lift (index (blk_Labels block) 0);
     name ← lift (index (blk_Labels block) 1);
     let key := "data." +:+ data_type +:+ "." +:+ name in
     n ← lift (countPattern bodyStr key);
     MapStore (DataBlocks m) key n
   else mret tt);;
  (if decide (blockType = "module") then
     name ← lift (index (blk_Labels block) 0);
     n ← lift (countPattern bodyStr ("module\." +:+ name));
     MapStore (Modules m) name n
   else mret tt);;
  (if decide (blockType = "variable") then
     name ← lift (index (blk_Labels block) 0);
     n ← lift (countPattern bodyStr ("var\." +:+ name +:+ "\W"));
     MapStore (Variables m) name n
   else if decide (blockType = "locals") then
     let attribs := blk_Attributes block in
     for_each (map_to_list attribs) (fun '(attrib, _) =>
       n ← lift (countPattern bodyStr ("local\." +:+ attrib +:+ "\W"));
       MapStore (Locals m) attrib n)
   else mret tt).

Definition processUsage (m : ModuleUsage) : Go (option error) :=
  match file m with
  | None => lift (Panic NilDereference)
  | Some f =>
      let bodyStr := file_Bytes f in
      for_each (file_Blocks f) (processBlock m bodyStr);;
      mret None
  end.

Definition DisplayType : Type := string.

Module DisplayType.
Definition All : DisplayType := "all".
Definition Variables : DisplayType := "variables".
Definition Locals : DisplayType := "locals".
End DisplayType.

(** The loop deletes only the entry it is visiting, so every entry the
    [range] started from is still there when its turn comes. *)
Definition filterUnusedOnly (items : loc) : Go loc :=
  entries ← MapEntries items;
  for_each entries (fun '(name, count) =>
    if (0 <? count)%Z then MapDelete items name else mret tt);;
  mret items.

(** U+1F680 and U+1F449 in UTF-8. *)
Definition rocket : string :=
  String (ascii_of_nat 240) (String (ascii_of_nat 159)
    (String (ascii_of_nat 154) (String (ascii_of_nat 128) EmptyString))).
Definition pointing : string :=
  String (ascii_of_nat 240) (String (ascii_of_nat 159)
    (String (ascii_of_nat 145) (String (ascii_of_nat 137) EmptyString))).

Definition print_entries (fmt : string -> Z -> string) (items : loc) : Go unit :=
  entries ← MapEntries items;
  for_each entries (fun '(name, count) => Printf (fmt name count)).


Definition when (b : bool) (c : Go unit) : Go unit := if b then c else mret tt.

Definition entry_line (name : string) (count : Z) : string :=
  name +:+ " : " +:+ pretty count +:+ nl.

Definition Display (m : ModuleUsage) (dType : DisplayType) (unusedOnly : bool)
    : Go (option error) :=
  variables ← NewMap;
  locals ← NewMap;
  modules ← NewMap;
  (* the switch: [Some (variables, locals)] when it falls through to the
     printing, [None] on its default branch *)
  chosen ←
    (if decide (dType = DisplayType.Locals) then
       locals ← (if unusedOnly then filterUnusedOnly (Locals m) else mret (Locals m));
       mret (Some (variables, locals))
     else if decide (dType = DisplayType.Variables) then
       variables ← (if unusedOnly then filterUnusedOnly (Variables m)
                    else mret (Variables m));
       mret (Some (variables, locals))
     else if decide (dType = DisplayType.All) then
       locals ← (if unusedOnly then filterUnusedOnly (Locals m) else mret (Locals m));
       variables ← (if unusedOnly then filterUnusedOnly (Variables m)
                    else mret (Variables m));
       mret (Some (variables, locals))
     else mret None);
  match chosen with
  | None => mret (Some (dType +:+ " is an invalid display Type"))
  | Some (variables, locals) =>
      len_locals ← MapLen locals;
      len_variables ← MapLen variables;
      len_modules ← MapLen modules;
      when (negb unusedOnly || (unusedOnly && (0 <? len_locals + len_variables)%Z))
        (Printf (nl +:+ " " +:+ rocket +:+ " Module: " +:+ Path m +:+ nl));;
      when (bool_decide (dType = DisplayType.All)
            || bool_decide (dType = DisplayType.Variables))
        (when (negb unusedOnly || (unusedOnly && (0 <? len_variables)%Z))
           (Printf (" " +:+ pointing +:+ " " +:+ pretty len_variables
                    +:+ " variables found" +:+ nl);;
            Printf (" " +:+ pointing +:+ " " +:+ pretty len_modules
                    +:+ " modules found" +:+ nl));;
         print_entries entry_line variables);;
      when (bool_decide (dType = DisplayType.All)
            || bool_decide (dType = DisplayType.Locals))
        (when (negb unusedOnly || (unusedOnly && (0 <? len_locals)%Z))
           (Printf (pointing +:+ " " +:+ pretty len_locals +:+ " locals found" +:+ nl));;
         print_entries entry_line locals;;
         print_entries entry_line modules);;
      mret None
  end.

Definition DisplayLocals (m : ModuleUsage) (unusedOnly : bool) : Go (option error) :=
  Display m DisplayType.Locals unusedOnly.

Definition DisplayVariables (m : ModuleUsage) (unusedOnly : bool) : Go (option error) :=
  Display m DisplayType.Variables unusedOnly.

(** [regexp.MustCompile] *)
Definition MustCompile (pattern : string) : result Regexp.Regexp :=
  match Regexp.Compile pattern with
  | Some re => Ok re
  | None => Panic PatternNotCompiled
  end.

#[global] Instance result_ret : MRet result := fun A a => Ok a.
#[global] Instance result_bind : MBind result := fun A B f r =>
  match r with
  | Ok a => f a
  | Panic why => Panic why
  end.

Definition token_type_eqb (a b : TokenType) : bool :=
  match a, b with
  | TokenOQuote, TokenOQuote | TokenQuotedLit, TokenQuotedLit
  | TokenCQuote, TokenCQuote => true
  | _, _ => false
  end.

(** parseModuleSource parses module source and returns module name and
    version. *)
Definition parseModuleSource (a : Attribute) : result (string * string) :=
  moduleSourceRegexp ← MustCompile "(.+)\?ref=v([0-9]+(\.[0-9]+)*(-.*)*)";
  let tokens := attr_Tokens a in
  match tokens with
  | [t0; t1; t2] =>
      if token_type_eqb (tok_Type t0) TokenOQuote
         && token_type_eqb (tok_Type t1) TokenQuotedLit
         && token_type_eqb (tok_Type t2) TokenCQuote
      then
        let source := tok_Bytes t1 in
        let matched := Regexp.FindStringSubmatch moduleSourceRegexp source in
        if (length matched =? 0)%nat then
          (* no version number *)
          mret (source, "")
        else
          name ← index matched 1;
          version ← index matched 2;
          mret (name, version)
      else mret ("", "")
  | _ => mret ("", "")
  end.

(** [filepath.Ext]: the suffix from the last dot of the last path element. *)
Fixpoint has_dot_or_separator (s : string) : bool :=
  match s with
  | EmptyString => false
  | String c s' => Ascii.eqb c "." || Ascii.eqb c "/" || has_dot_or_separator s'
  end.

Fixpoint Ext (path : string) : string :=
  match path with
  | EmptyString => ""
  | String c rest =>
      if has_dot_or_separator rest then Ext rest
      else if Ascii.eqb c "." then path
      else ""
  end.

Section Loading.
(** The operating system and the HCL parser, from outside the program.
    [ReadDir] gives the names of the entries of a directory, which
    [os.ReadDir] sorts by file name; [ParseConfig] gives the file, or the
    text of its diagnostics when they hold an error. *)
Variable ReadDir : string -> list string * option error.
Variable ReadFile : string -> string * option error.
Variable Join : string -> string -> string.
Variable ParseConfig : string -> File + string.

Fixpoint load_files (path : string) (files : list string) (out : string)
    : string * option error :=
  match files with
  | [] => (out, None)
  | file_name :: files' =>
      if decide (Ext file_name = ".tf") then
        let '(data, err) := ReadFile (Join path file_name) in
        match err with
        | Some e => (out, Some e)
        | None => load_files path files' ((out +:+ nl) +:+ data)
        end
      else load_files path files' out
  end.

Definition LoadTfModule (path : string) : string * option error :=
  let out := "" in
  let '(files, err) := ReadDir path in
  match err with
  | Some e => (out, Some e)
  | None => load_files path files out
  end.

Definition NewModuleUsage (path : string) : Go (option ModuleUsage * option error) :=
  variables ← NewMap;
  locals ← NewMap;
  modules ← NewMap;
  dataBlocks ← NewMap;
  let m := mkModuleUsage path variables locals modules dataBlocks None in
  let '(src, err) := LoadTfModule path in
  match err with
  | Some e => mret (None, Some e)
  | None =>
      match ParseConfig src with
      | inr diags => mret (None, Some (path +:+ ":" +:+ diags))
      | inl f =>
          let m := mkModuleUsage (Path m) (Variables m) (Locals m) (Modules m)
                     (DataBlocks m) (Some f) in
          err ← processUsage m;
          mret (Some m, err)
      end
  end.
End Loading.

(** ** What the specification counts

    The specification speaks of the occurrences of a literal text in the
    module text, counted without overlap from the left, as Go's
    [strings.Count] does: after an occurrence the scan resumes right behind
    the literal. *)

(** [lit] stands at the head of [s]. *)
Definition occurs_here (lit s : string) : bool := String.prefix lit s.

(** [lit] stands at the head of [s] and a non-word character follows it. *)
Definition occurs_bounded_here (lit s : string) : bool :=
  String.prefix lit s &&
  match String.get (String.length lit) s with
  | Some c => negb (is_word_char c)
  | None => false
  end.

Equations? count_occurrences (here : string -> bool) (width : nat) (s : string) : nat
  by wf (String.length s) lt :=
  count_occurrences here width EmptyString := 0;
  count_occurrences here width (String c s') :=
    if here (String c s')
    then S (count_occurrences here width (drop_string (width - 1) s'))
    else count_occurrences here width s'.
Proof.
  all: simpl; try lia.
  assert (Hdrop : forall n t, (String.length (drop_string n t) <= String.length t)%nat).
  { induction n as [|n IH]; intros [|a t]; simpl; try lia. specialize (IH t). lia. }
  specialize (Hdrop (width - 1) s'). lia.
Qed.

(** The number of occurrences of [lit] in [s]. *)
Definition count_literal (lit s : string) : nat :=
  count_occurrences (occurs_here lit) (String.length lit) s.

(** The number of occurrences of [lit] in [s] that a non-word character
    follows. *)
Definition count_bounded (lit s : string) : nat :=
  count_occurrences (occurs_bounded_here lit) (String.length lit) s.

(** ** Names and patterns *)

(** A name no character of which has a meaning in a pattern; every
    Terraform identifier (letters, digits, [_] and [-]) is one. *)
Fixpoint plain (s : string) : bool :=
  match s with
  | EmptyString => true
  | String c s' => negb (Regexp.is_meta c) && plain s'
  end.

(** The pattern of a literal text. *)
Fixpoint lits (s : string) : list Regexp.Node :=
  match s with
  | EmptyString => []
  | String c s' => Regexp.Lit c :: lits s'
  end.

(** Nodes that take exactly one character. *)
Definition is_atom (n : Regexp.Node) : bool :=
  match n with
  | Regexp.Lit _ | Regexp.AnyCharNotNL | Regexp.CharClass _ _ => true
  | _ => false
  end.

Definition atom_ok (n : Regexp.Node) (c : ascii) : bool :=
  match n with
  | Regexp.Lit a => Ascii.eqb a c
  | Regexp.AnyCharNotNL => negb (Ascii.eqb c (ascii_of_nat 10))
  | Regexp.CharClass neg rs => xorb neg (in_ranges rs c)
  | _ => false
  end.

Fixpoint atoms_match (ns : list Regexp.Node) (s : string) : bool :=
  match ns with
  | [] => true
  | n :: ns' =>
      match s with
      | String c s' => atom_ok n c && atoms_match ns' s'
      | EmptyString => false
      end
  end.

(** [\W] *)
Definition not_word : Regexp.Node := Regexp.CharClass true word_ranges.

(** Bring the reversed node lists the parser builds back in reading order. *)
Ltac norm_rev :=
  repeat (simpl; rewrite ?app_nil_r, ?rev_app_distr, ?rev_involutive, <- ?app_assoc);
  try done.

(** ** Reports as plain data

    The four mappings of a report, read out of the heap. *)

Record Counts : Type := mkCounts {
  c_variables : GoMap;
  c_locals : GoMap;
  c_modules : GoMap;
  c_dataBlocks : GoMap
}.

(** The report [m] owns four maps of the heap, and they hold [r]. *)
Definition holds (m : ModuleUsage) (w : World) (r : Counts) : Prop :=
  maps w !! Variables m = Some (c_variables r)
  /\ maps w !! Locals m = Some (c_locals r)
  /\ maps w !! Modules m = Some (c_modules r)
  /\ maps w !! DataBlocks m = Some (c_dataBlocks r).

(** The four maps are four maps, as [NewModuleUsage] makes them. *)
Definition distinct (m : ModuleUsage) : Prop :=
  NoDup [Variables m; Locals m; Modules m; DataBlocks m].

(** The count [countPattern] returns, where it returns one. *)
Definition count_of (content pattern : string) : Z :=
  match countPattern content pattern with
  | Ok n => n
  | Panic _ => 0
  end.

Definition set_all (val : string -> Z) (keys : list string) (mp : GoMap) : GoMap :=
  foldl (fun acc k => <[k := val k]> acc) mp keys.

(** The keys a block writes in each mapping. *)
Definition data_keys (b : Block) : list string :=
  if decide (blk_Type b = "data") then
    match blk_Labels b with
    | data_type :: name :: _ => ["data." +:+ data_type +:+ "." +:+ name]
    | _ => []
    end
  else [].

Definition module_keys (b : Block) : list string :=
  if decide (blk_Type b = "module") then
    match blk_Labels b with
    | name :: _ => [name]
    | _ => []
    end
  else [].

Definition variable_keys (b : Block) : list string :=
  if decide (blk_Type b = "variable") then
    match blk_Labels b with
    | name :: _ => [name]
    | _ => []
    end
  else [].

Definition local_keys (b : Block) : list string :=
  if decide (blk_Type b = "locals") then (map_to_list (blk_Attributes b)).*1 else [].

Definition variable_pattern (name : string) : string := "var\." +:+ name +:+ "\W".
Definition local_pattern (name : string) : string := "local\." +:+ name +:+ "\W".
Definition module_pattern (name : string) : string := "module\." +:+ name.

(** What a block does to the report. *)
Definition block_effect (bodyStr : string) (b : Block) (r : Counts) : Counts :=
  mkCounts
    (set_all (fun k => count_of bodyStr (variable_pattern k)) (variable_keys b)
       (c_variables r))
    (set_all (fun k => count_of bodyStr (local_pattern k)) (local_keys b) (c_locals r))
    (set_all (fun k => count_of bodyStr (module_pattern k)) (module_keys b)
       (c_modules r))
    (set_all (fun k => count_of bodyStr k) (data_keys b) (c_dataBlocks r)).

(** A block the extractor can work on: it has the labels its type calls
    for, and its names are plain. *)
Definition block_ok (b : Block) : bool :=
  if decide (blk_Type b = "data") then
    match blk_Labels b with
    | data_type :: name :: _ => plain data_type && plain name
    | _ => false
    end
  else if decide (blk_Type b = "module") then
    match blk_Labels b with
    | name :: _ => plain name
    | _ => false
    end
  else if decide (blk_Type b = "variable") then
    match blk_Labels b with
    | name :: _ => plain name
    | _ => false
    end
  else if decide (blk_Type b = "locals") then
    forallb plain (map_to_list (blk_Attributes b)).*1
  else true.

(** The heap after map [l] got the content [mp]. *)
Definition store_at (l : loc) (mp : GoMap) (w : World) : World :=
  mkWorld (<[l := mp]> (maps w)) (stdout w).

(** What a sequence of blocks does to the report. *)
Definition blocks_effect (bodyStr : string) (blocks : list Block) (r : Counts) : Counts :=
  foldl (fun r b => block_effect bodyStr b r) r blocks.

Definition empty_counts : Counts := mkCounts ∅ ∅ ∅ ∅.

(** ** Sample modules *)

Definition quoted (s : string) : string := dq +:+ s +:+ dq.

Fixpoint lines (ls : list string) : string :=
  match ls with
  | [] => ""
  | l :: ls' => l +:+ nl +:+ lines ls'
  end.

(** The tokens of a reference such as [var.region]. *)
Definition reference (root name : string) : Attribute :=
  mkAttribute [mkToken TokenIdent root; mkToken TokenDot "."; mkToken TokenIdent name].

(** The tokens of a quoted string without interpolation. *)
Definition string_literal (s : string) : Attribute :=
  mkAttribute [mkToken TokenOQuote dq; mkToken TokenQuotedLit s; mkToken TokenCQuote dq].

(** A directory that holds the one file [main.tf] with the given text,
    and a parser that finds the given blocks in it. *)
Definition one_file : string -> list string * option error :=
  fun _ => (["main.tf"], None).
Definition reads (text : string) : string -> string * option error :=
  fun _ => (text, None).
Definition slash (dir name : string) : string := dir +:+ "/" +:+ name.
Definition parses_to (blocks : list Block) : string -> File + string :=
  fun src => inl (mkFile src blocks).

Definition construct (text : string) (blocks : list Block)
    : result ((option ModuleUsage * option error) * World) :=
  NewModuleUsage one_file (reads text) slash (parses_to blocks) "mod" (mkWorld ∅ []).

(** The count a constructed report holds under [key] in one of its maps. *)
Definition stored (sel : ModuleUsage -> loc) (key : string)
    (res : result ((option ModuleUsage * option error) * World)) : option Z :=
  match res with
  | Ok ((Some m, None), w) => maps w !! sel m ≫= (.!! key)
  | _ => None
  end.

Definition region_text : string :=
  lines [ "variable " +:+ quoted "region" +:+ " {}";
          "variable " +:+ quoted "region_id" +:+ " {}";
          "provider " +:+ quoted "null" +:+ " {";
          "  region = var.region";
          "  id     = var.region_id";
          "}" ].

Definition region_blocks : list Block :=
  [ mkBlock "variable" ["region"] ∅;
    mkBlock "variable" ["region_id"] ∅;
    mkBlock "provider" ["null"]
      (<["region" := reference "var" "region"]>
         (<["id" := reference "var" "region_id"]> ∅)) ].

Definition foo_text : string :=
  lines [ "module " +:+ quoted "foo" +:+ " {";
          "  source = " +:+ quoted "./foo";
          "}";
          "module " +:+ quoted "foobar" +:+ " {";
          "  source = " +:+ quoted "./foobar";
          "}";
          "output " +:+ quoted "id" +:+ " {";
          "  value = module.foobar.id";
          "}" ].




Definition twice_text : string :=
  lines [ "module " +:+ quoted "test" +:+ " {";
          "    source = " +:+ quoted "./1";
          "}";
          "";
          "module " +:+ quoted "test" +:+ " {";
          "    source = " +:+ quoted "./1";
          "}";
          "";
          "output " +:+ quoted "test" +:+ " {";
          "  value = module.test.outputs.test";
          "}";
          "";
          "output " +:+ quoted "test2" +:+ " {";
          "  value = module.test.outputs.test";
          "}" ].

Definition outputs_test : Attribute :=
  mkAttribute [ mkToken TokenIdent "module"; mkToken TokenDot ".";
                mkToken TokenIdent "test"; mkToken TokenDot ".";
                mkToken TokenIdent "outputs"; mkToken TokenDot ".";
                mkToken TokenIdent "test" ].

Definition twice_blocks : list Block :=
  [ mkBlock "module" ["test"] (<["source" := string_literal "./1"]> ∅);
    mkBlock "module" ["test"] (<["source" := string_literal "./1"]> ∅);
    mkBlock "output" ["test"] (<["value" := outputs_test]> ∅);
    mkBlock "output" ["test2"] (<["value" := outputs_test]> ∅) ].

(** A file without a final newline: its last characters are [var.x]. *)
Definition end_text : string :=
  "variable " +:+ quoted "x" +:+ " {}" +:+ nl +:+ "y = var.x".

Definition end_blocks : list Block := [ mkBlock "variable" ["x"] ∅ ].

Definition data_text : string :=
  lines [ "data " +:+ quoted "null_data_source" +:+ " " +:+ quoted "values" +:+ " {}";
          "output " +:+ quoted "data_null_data_source_values" +:+ " {";
          "  value = 1";
          "}" ].

Definition data_blocks : list Block :=
  [ mkBlock "data" ["null_data_source"; "values"] ∅;
    mkBlock "output" ["data_null_data_source_values"]
      (<["value" := mkAttribute [mkToken TokenNumberLit "1"]]> ∅) ].


(** ** Commands that only read the heap *)

(** From a heap that satisfies [P], the command [c] runs without a panic,
    leaves every map as it was and returns a value that satisfies [Q]. *)
Definition reads_only {A : Type} (P : gmap loc GoMap -> Prop) (c : Go A)
    (Q : A -> Prop) : Prop :=
  forall w, P (maps w) ->
    exists a w', c w = Ok (a, w') /\ maps w' = maps w /\ Q a.

(** What the loop of [filterUnusedOnly] leaves of a map. *)
Definition delete_used (entries : list (string * Z)) (mp : GoMap) : GoMap :=
  foldl (fun acc '(name, count) => if (0 <? count)%Z then delete name acc else acc)
    mp entries.

(** A report with two variables and two locals, and its heap. *)
Definition sample_report : ModuleUsage := mkModuleUsage "mod" 1 2 3 4 None.

Definition sample_variables : GoMap := <["region" := 1%Z]> (<["zone" := 0%Z]> ∅).
Definition sample_locals : GoMap := <["dummy" := 0%Z]> (<["tags" := 1%Z]> ∅).

Definition sample_world : World :=
  mkWorld (<[1%positive := sample_variables]> (<[2%positive := sample_locals]>
             (<[3%positive := ∅]> (<[4%positive := ∅]> ∅)))) [].

(** ** Module sources and the loader, as the specification words them *)

(** The text of an attribute whose value is a single quoted string
    literal: an opening quote, one literal, a closing quote. *)
Definition quoted_literal (a : Attribute) : option string :=
  match attr_Tokens a with
  | [mkToken TokenOQuote _; mkToken TokenQuotedLit s; mkToken TokenCQuote _] => Some s
  | _ => None
  end.

(** The configuration files among the entries of a directory, and what
    reading them gives. *)
Definition tf_names (names : list string) : list string :=
  filter (fun file_name => Ext file_name = ".tf") names.

Definition contents (ReadFile : string -> string * option error)
    (Join : string -> string -> string) (path : string) (names : list string)
    : list string :=
  (fun file_name => (ReadFile (Join path file_name)).1) <$> tf_names names.

(** Texts with one newline between each two of them, and none before the
    first or behind the last. *)
Fixpoint join_newline (texts : list string) : string :=
  match texts with
  | [] => ""
  | t :: rest =>
      match rest with
      | [] => t
      | _ :: _ => t +:+ nl +:+ join_newline rest
      end
  end.

(** The same behind one more newline, when there is a text at all. *)
Definition newline_first (texts : list string) : string :=
  match texts with
  | [] => ""
  | _ :: _ => nl +:+ join_newline texts
  end.

(** A directory with two configuration files and a file of another kind. *)
Definition two_files : string -> list string * option error :=
  fun _ => (["a.tf"; "b.tf"; "notes.md"], None).

Definition by_name : string -> string * option error :=
  fun file_path =>
    if decide (file_path = "mod/a.tf") then ("x = 1", None)
    else if decide (file_path = "mod/b.tf") then ("y = 2", None)
    else ("", Some "no such file").

(** ** More sample directories *)

(** Three configuration files, the second of which cannot be read by
    [by_name]. *)
Definition three_files : string -> list string * option error :=
  fun _ => (["a.tf"; "c.tf"; "b.tf"], None).

(** A directory that cannot be listed, and a parser that finds an error. *)
Definition unlisted : string -> list string * option error :=
  fun _ => ([], Some "permission denied").
Definition refuses (diags : string) : string -> File + string :=
  fun _ => inr diags.

(** ** What is displayed *)

(** The entries [filterUnusedOnly] leaves in a map. *)
Definition kept (items : GoMap) : GoMap :=
  filter (fun kv => ~ (0 < kv.2)%Z) items.

(** One line for each entry of a map, in the order of its [range]. *)
Definition entry_lines (fmt : string -> Z -> string) (items : GoMap) : list string :=
  (fun kv => fmt kv.1 kv.2) <$> map_to_list items.

Definition module_line (m : ModuleUsage) : string :=
  nl +:+ " " +:+ rocket +:+ " Module: " +:+ Path m +:+ nl.
Definition variables_found (n : Z) : string :=
  " " +:+ pointing +:+ " " +:+ pretty n +:+ " variables found" +:+ nl.
Definition modules_found (n : Z) : string :=
  " " +:+ pointing +:+ " " +:+ pretty n +:+ " modules found" +:+ nl.
Definition locals_found (n : Z) : string :=
  pointing +:+ " " +:+ pretty n +:+ " locals found" +:+ nl.

(** The lines of a display of the given type, over the variables and the
    locals it shows. *)
Definition display_lines (m : ModuleUsage) (dType : DisplayType) (unusedOnly : bool)
    (variables locals : GoMap) : list string :=
  let len_variables := Z.of_nat (size variables) in
  let len_locals := Z.of_nat (size locals) in
  (if negb unusedOnly || (0 <? len_locals + len_variables)%Z
   then [module_line m] else [])
  ++ (if bool_decide (dType = DisplayType.All)
         || bool_decide (dType = DisplayType.Variables)
      then (if negb unusedOnly || (0 <? len_variables)%Z
            then [variables_found len_variables; modules_found 0] else [])
           ++ entry_lines entry_line variables
      else [])
  ++ (if bool_decide (dType = DisplayType.All)
         || bool_decide (dType = DisplayType.Locals)
      then (if negb unusedOnly || (0 <? len_locals)%Z
            then [locals_found len_locals] else [])
           ++ entry_lines entry_line locals
      else []).


(** A heap for [sample_report] in which every variable and every local is
    referred to. *)
Definition busy_variables : GoMap := <["region" := 1%Z]> ∅.
Definition busy_locals : GoMap := <["tags" := 2%Z]> ∅.
Definition busy_world : World :=
  mkWorld (<[1%positive := busy_variables]> (<[2%positive := busy_locals]>
             (<[3%positive := ∅]> (<[4%positive := ∅]> ∅)))) [].

(** ** Blocks the extractor cannot work on *)

(** A block that lacks a label its type is read by: a [data] block with
    fewer than two labels, a [module] or [variable] block with none. *)
Definition lacks_labels (b : Block) : bool :=
  (bool_decide (blk_Type b = "data") && (length (blk_Labels b) <? 2)%nat)
  || ((bool_decide (blk_Type b = "module") || bool_decide (blk_Type b = "variable"))
      && (length (blk_Labels b) =? 0)%nat).

(** A module whose second block is [variable {}]. *)
Definition unlabelled_text : string :=
  lines [ "variable " +:+ quoted "region" +:+ " {}"; "variable {}" ].
Definition unlabelled_blocks : list Block :=
  [ mkBlock "variable" ["region"] ∅; mkBlock "variable" [] ∅ ].

(** A command that changes no map outside [locs]. *)
Definition writes_only {A : Type} (locs : list loc) (c : Go A) : Prop :=
  forall w a w', c w = Ok (a, w') ->
    forall l, l ∉ locs -> maps w' !! l = maps w !! l.

(** ** Discovery of the modules below a directory

    [filepath.WalkDir] over a file tree.  An entry is a file, or a
    directory with the entries [os.ReadDir] gives for it, in name order,
    and the error of that reading when there is one.  The callback is
    called for the root and then for every entry, a directory before what
    is in it; a directory that cannot be read is handed to the callback a
    second time with the error; the first error a callback returns ends
    the walk.  The callback of [ListTfModules] only returns errors that
    were handed to it, so the sentinels [SkipDir] and [SkipAll] play no
    part and are left out. *)

#[warnings="-register-all"]
Inductive Entry : Type :=
| RegularFile
| Directory (entries : list (string * Entry)) (err : option error).

Section WalkDir.
Context {S : Type}.
Variable Join : string -> string -> string.
Variable fn : string -> option error -> S -> option error * S.

Fixpoint walkDir (path : string) (d : Entry) (st : S) {struct d} : option error * S :=
  match fn path None st with
  | (Some e, st1) => (Some e, st1)
  | (None, st1) =>
      match d with
      | RegularFile => (None, st1)
      | Directory entries err =>
          let '(r, st2) :=
            match err with
            | Some e => fn path (Some e) st1
            | None => (None, st1)
            end in
          match r with
          | Some e => (Some e, st2)
          | None =>
              (fix walk_entries (es : list (string * Entry)) (st : S)
                 : option error * S :=
                 match es with
                 | [] => (None, st)
                 | (name, d1) :: es' =>
                     match walkDir (Join path name) d1 st with
                     | (Some e, st') => (Some e, st')
                     | (None, st') => walk_entries es' st'
                     end
                 end) entries st2
          end
      end
  end.

(** [root] is looked at with [os.Lstat] first. *)
Definition WalkDir (root : string) (at_root : Entry + error) (st : S)
    : option error * S :=
  match at_root with
  | inr e => fn root (Some e) st
  | inl d => walkDir root d st
  end.
End WalkDir.

(** The map [ListTfModules] fills, and the messages it hands to
    [log.Debugf]. *)
Record Found : Type := mkFound {
  directories : gmap string bool;
  debug_log : list string
}.

Section Discovery.
Variable Lstat : string -> Entry + error.
Variable Join : string -> string -> string.
Variable Dir : string -> string.          (* [filepath.Dir] *)

Definition visit (path : string) (err : option error) (st : Found)
    : option error * Found :=
  match err with
  | Some e => (Some e, st)
  | None =>
      if decide (Ext path = ".tf") then
        let module := Dir path in
        let st := mkFound (directories st)
                    (debug_log st ++ ["Visited: " +:+ module +:+ nl]) in
        match directories st !! module with
        | None => (None, mkFound (<[module := true]> (directories st)) (debug_log st))
        | Some _ => (None, st)
        end
      else (None, st)
  end.

Definition ListTfModules (path : string)
    : (option (gmap string bool) * option error) * list string :=
  let '(err, st) := WalkDir Join visit path (Lstat path) (mkFound ∅ []) in
  match err with
  | Some e => ((None, Some e), debug_log st)
  | None => ((Some (directories st), None), debug_log st)
  end.
End Discovery.

(** What a visit without an error leaves. *)
Definition seen (Dir : string -> string) (st : Found) (path : string) : Found :=
  (visit Dir path None st).2.

(** The paths of a tree in the order of the walk, and whether every
    directory of the tree can be read. *)
Fixpoint paths (Join : string -> string -> string) (path : string) (d : Entry)
    : list string :=
  path ::
  match d with
  | RegularFile => []
  | Directory entries _ =>
      (fix below (es : list (string * Entry)) : list string :=
         match es with
         | [] => []
         | (name, d1) :: es' => paths Join (Join path name) d1 ++ below es'
         end) entries
  end.

Fixpoint readable (d : Entry) : bool :=
  match d with
  | RegularFile => true
  | Directory entries err =>
      match err with Some _ => false | None => true end
      && (fix all (es : list (string * Entry)) : bool :=
            match es with
            | [] => true
            | (_, d1) :: es' => readable d1 && all es'
            end) entries
  end.

(** A tree with two modules, one of them with two configuration files,
    and the same tree with a directory that cannot be read. *)
Definition sample_tree : Entry :=
  Directory [ ("a", Directory [("main.tf", RegularFile); ("vars.tf", RegularFile)] None);
              ("b", Directory [("main.tf", RegularFile)] None);
              ("readme.md", RegularFile) ] None.
Definition locked_tree : Entry :=
  Directory [ ("a", Directory [("main.tf", RegularFile)] None);
              ("b", Directory [] (Some "permission denied")) ] None.

(** [filepath.Dir] on the relative paths [slash] makes: what stands
    before the last slash, or [.] when there is none. *)
Fixpoint has_slash (s : string) : bool :=
  match s with
  | EmptyString => false
  | String c s' => Ascii.eqb c "/" || has_slash s'
  end.
Fixpoint before_last_slash (s : string) : string :=
  match s with
  | EmptyString => ""
  | String c s' => if has_slash s' then String c (before_last_slash s') else ""
  end.
Definition parent (path : string) : string :=
  if has_slash path then before_last_slash path else ".".

(** Whether the character [c] stands somewhere in [s]. *)
Fixpoint mentions (c : ascii) (s : string) : bool :=
  match s with
  | EmptyString => false
  | String c' s' => Ascii.eqb c c' || mentions c s'
  end.

(** A continuation of the matcher that fails on every input with the
    property [Inv]. *)
Definition fails_on {R : Type} (Inv : string -> Prop)
    (k : string -> nat -> Regexp.Caps -> option R) : Prop :=
  forall s pos caps, Inv s -> k s pos caps = None.


(** The indices of the groups inside a node. *)
Fixpoint groups (n : Regexp.Node) : list nat :=
  match n with
  | Regexp.Capture idx sub =>
      idx :: (fix inside (ns : list Regexp.Node) : list nat :=
                match ns with
                | [] => []
                | n' :: ns' => groups n' ++ inside ns'
                end) sub
  | Regexp.Star sub | Regexp.Plus sub | Regexp.Quest sub => groups sub
  | _ => []
  end.

(** What a group adds to the list of captures: its own span in front of
    the spans of the groups inside it. *)
Definition group_first (n : Regexp.Node) (pos : nat) (t : string)
    (new : Regexp.Caps) : Prop :=
  match n with
  | Regexp.Capture idx sub =>
      exists inner, new = (idx, (pos, (pos + String.length t)%nat)) :: inner
  | _ => True
  end.

(** * Properties *)

(** ** The pattern language *)

Lemma kind_of_plain c : Regexp.is_meta c = false -> Regexp.kind_of c = Regexp.KLit.
Proof. unfold Regexp.is_meta. by destruct (Regexp.kind_of c). Qed.

Lemma parse_plain s rest stack cur ncap :
  plain s = true ->
  Regexp.parse (s +:+ rest) stack cur ncap None
  = Regexp.parse rest stack (rev (lits s) ++ cur) ncap None.
Proof.
  revert cur. induction s as [|c s IH]; intros cur Hs; [done|].
  simpl in Hs. apply andb_prop in Hs as [Hc Hs].
  apply negb_true_iff, kind_of_plain in Hc.
  change (String c s +:+ rest) with (String c (s +:+ rest)).
  cbn [Regexp.parse lits rev]. rewrite Hc, IH by done.
  by rewrite <- app_assoc.
Qed.

Lemma append_nil_r s : s +:+ "" = s.
Proof.
  induction s as [|c s IH]; [done|].
  change (String c s +:+ "") with (String c (s +:+ "")). by rewrite IH.
Qed.

Lemma lits_app a b : lits (a +:+ b) = lits a ++ lits b.
Proof.
  induction a as [|c a IH]; [done|].
  change (String c a +:+ b) with (String c (a +:+ b)). simpl. by rewrite IH.
Qed.

Lemma plain_app a b : plain (a +:+ b) = plain a && plain b.
Proof.
  induction a as [|c a IH]; [done|].
  change (String c a +:+ b) with (String c (a +:+ b)). simpl.
  by rewrite IH, andb_assoc.
Qed.

(** A literal text, a node for one escape, and more pattern behind. *)
Lemma parse_plain_escape s e n rest stack cur ncap :
  plain s = true -> Regexp.escape e = Some n ->
  Regexp.parse (s +:+ String "\" (String e rest)) stack cur ncap None
  = Regexp.parse rest stack (n :: rev (lits s) ++ cur) ncap None.
Proof.
  intros Hs He. rewrite parse_plain by done.
  cbn [Regexp.parse]. change (Regexp.kind_of "\") with Regexp.KBackslash.
  cbn iota. by rewrite He.
Qed.

Lemma parse_plain_end s cur ncap :
  plain s = true ->
  Regexp.parse s [] cur ncap None = Some (Regexp.mkRegexp (rev cur ++ lits s) ncap).
Proof.
  intros Hs. rewrite <- (append_nil_r s) at 1.
  rewrite parse_plain by done. cbn [Regexp.parse].
  by rewrite rev_app_distr, rev_involutive.
Qed.

Lemma Compile_bounded (prefix name : string) :
  plain prefix = true -> plain name = true ->
  Regexp.Compile (prefix +:+ "\." +:+ name +:+ "\W")
  = Some (Regexp.mkRegexp (lits (prefix +:+ "." +:+ name) ++ [not_word]) 0).
Proof.
  intros Hp Hn. unfold Regexp.Compile.
  change ("\." +:+ name +:+ "\W") with (String "\" (String "." (name +:+ "\W"))).
  rewrite (parse_plain_escape prefix "." (Regexp.Lit ".")) by done.
  change (name +:+ "\W") with (name +:+ String "\" (String "W" "")).
  rewrite (parse_plain_escape name "W" not_word) by done.
  cbn [Regexp.parse]. f_equal. f_equal.
  rewrite !lits_app. norm_rev.
Qed.

Lemma Compile_literal (prefix name : string) :
  plain prefix = true -> plain name = true ->
  Regexp.Compile (prefix +:+ "\." +:+ name)
  = Some (Regexp.mkRegexp (lits (prefix +:+ "." +:+ name)) 0).
Proof.
  intros Hp Hn. unfold Regexp.Compile.
  change ("\." +:+ name) with (String "\" (String "." name)).
  rewrite (parse_plain_escape prefix "." (Regexp.Lit ".")) by done.
  rewrite parse_plain_end by done. f_equal. f_equal.
  rewrite !lits_app. norm_rev.
Qed.

(** The key of a data block read as a pattern: its dots stay dots. *)
Lemma Compile_data_key (data_type name : string) :
  plain data_type = true -> plain name = true ->
  Regexp.Compile ("data." +:+ data_type +:+ "." +:+ name)
  = Some (Regexp.mkRegexp
            (lits "data" ++ Regexp.AnyCharNotNL :: lits data_type
             ++ Regexp.AnyCharNotNL :: lits name) 0).
Proof.
  intros Ht Hn. unfold Regexp.Compile.
  change ("data." +:+ data_type +:+ "." +:+ name)
    with ("data" +:+ String "." (data_type +:+ String "." name)).
  rewrite parse_plain by done. cbn [Regexp.parse].
  change (Regexp.kind_of ".") with Regexp.KDot. cbn iota.
  rewrite parse_plain by done. cbn [Regexp.parse].
  change (Regexp.kind_of ".") with Regexp.KDot. cbn iota.
  rewrite parse_plain_end by done. f_equal. f_equal. norm_rev.
Qed.

(** ** Matching a pattern of one-character nodes *)

Lemma exec_atom {R} n s pos caps (k : string -> nat -> Regexp.Caps -> option R) :
  is_atom n = true ->
  Regexp.exec n s pos caps k
  = match s with
    | String c s' => if atom_ok n c then k s' (S pos) caps else None
    | EmptyString => None
    end.
Proof. by destruct n. Qed.

Lemma exec_seq_atoms {R} ns :
  forallb is_atom ns = true ->
  forall s pos caps (k : string -> nat -> Regexp.Caps -> option R),
    Regexp.exec_seq ns s pos caps k
    = if atoms_match ns s
      then k (drop_string (length ns) s) (pos + length ns)%nat caps
      else None.
Proof.
  induction ns as [|n ns IH]; intros Hns s pos caps k.
  - simpl. by rewrite Nat.add_0_r.
  - simpl in Hns. apply andb_prop in Hns as [Hn Hns].
    cbn [Regexp.exec_seq]. rewrite exec_atom by done.
    destruct s as [|c s]; [done|]. simpl.
    destruct (atom_ok n c); [|done]. rewrite IH by done. simpl.
    by rewrite Nat.add_succ_r.
Qed.

Lemma match_at_atoms re s pos :
  forallb is_atom (Regexp.prog re) = true ->
  Regexp.match_at re s pos
  = if atoms_match (Regexp.prog re) s
    then Some ((pos + length (Regexp.prog re))%nat, [])
    else None.
Proof. intros H. unfold Regexp.match_at. by rewrite exec_seq_atoms. Qed.

Lemma count_occurrences_ext here1 here2 width s :
  (forall t, here1 t = here2 t) ->
  count_occurrences here1 width s = count_occurrences here2 width s.
Proof.
  intros Hext. funelim (count_occurrences here1 width s); simp count_occurrences.
  - done.
  - rewrite <- Hext. destruct (here (String c s')); [f_equal|]; eauto.
Qed.

(** The matches [FindAllStringIndex] reports for such a pattern are the
    occurrences found by scanning from the left and resuming behind each. *)
Lemma find_all_atoms re :
  forallb is_atom (Regexp.prog re) = true -> Regexp.prog re <> [] ->
  forall s pos skip prev,
    length (Regexp.find_all re s pos skip prev)
    = count_occurrences (atoms_match (Regexp.prog re)) (length (Regexp.prog re))
        (drop_string skip s).
Proof.
  intros Hatoms Hne. induction s as [|c s IH]; intros pos skip prev.
  - destruct skip; simpl.
    + rewrite match_at_atoms by done.
      destruct (Regexp.prog re); [done|]. simpl. by simp count_occurrences.
    + by simp count_occurrences.
  - destruct skip as [|skip]; cbn [Regexp.find_all drop_string].
    + rewrite match_at_atoms by done. simp count_occurrences.
      destruct (atoms_match (Regexp.prog re) (String c s)).
      * assert ((pos + length (Regexp.prog re) =? pos)%nat = false) as ->.
        { apply Nat.eqb_neq. destruct (Regexp.prog re); [done|]. simpl. lia. }
        simpl. rewrite IH. do 3 f_equal. lia.
      * apply IH.
    + apply IH.
Qed.

(** ** Patterns of literal text *)

Lemma ascii_eqb_dec a b : Ascii.eqb a b = if ascii_dec a b then true else false.
Proof.
  destruct (ascii_dec a b) as [->|Hne].
  - apply Ascii.eqb_refl.
  - by apply Ascii.eqb_neq.
Qed.

Lemma atoms_match_lits lit rest s :
  atoms_match (lits lit ++ rest) s
  = String.prefix lit s && atoms_match rest (drop_string (String.length lit) s).
Proof.
  revert s. induction lit as [|a lit IH]; intros s; simpl.
  - by destruct s.
  - destruct s as [|c s]; [done|]. simpl. rewrite ascii_eqb_dec.
    destruct (ascii_dec a c); [apply IH|done].
Qed.

Lemma atoms_match_literal lit s : atoms_match (lits lit) s = occurs_here lit s.
Proof.
  rewrite <- (app_nil_r (lits lit)), atoms_match_lits. simpl.
  apply andb_true_r.
Qed.

Lemma get_drop_string n s : String.get 0 (drop_string n s) = String.get n s.
Proof.
  revert s. induction n as [|n IH]; intros [|c s]; simpl; auto.
Qed.

Lemma drop_string_get n s b :
  String.get n s = Some b -> drop_string n s = String b (drop_string (S n) s).
Proof.
  revert s. induction n as [|n IH]; intros [|c s] H; simpl in *; try done.
  - by inversion H.
  - by apply IH.
Qed.

Lemma atoms_match_bounded lit s :
  atoms_match (lits lit ++ [not_word]) s = occurs_bounded_here lit s.
Proof.
  rewrite atoms_match_lits. unfold occurs_bounded_here. f_equal.
  rewrite <- get_drop_string.
  destruct (drop_string (String.length lit) s) as [|c t]; simpl; [done|].
  apply andb_true_r.
Qed.

Lemma length_lits s : length (lits s) = String.length s.
Proof. induction s; simpl; auto. Qed.

Lemma forallb_atom_lits s : forallb is_atom (lits s) = true.
Proof. induction s; simpl; auto. Qed.

Lemma drop_string_length n s :
  (String.length (drop_string n s) <= String.length s)%nat.
Proof.
  revert s. induction n as [|n IH]; intros [|c s]; simpl; try lia.
  specialize (IH s). lia.
Qed.

(** An occurrence that needs a non-word character behind it cannot start
    on that character when the literal starts with a word character, so
    it does not matter whether a match takes the character along. *)
Lemma count_bounded_width c0 lit' s :
  is_word_char c0 = true ->
  let lit := String c0 lit' in
  count_occurrences (occurs_bounded_here lit) (S (String.length lit)) s
  = count_occurrences (occurs_bounded_here lit) (String.length lit) s.
Proof.
  intros Hc0 lit.
  assert (Hhead : forall b t, is_word_char b = false ->
                              occurs_bounded_here lit (String b t) = false).
  { intros b t Hb. unfold occurs_bounded_here, lit. simpl.
    destruct (ascii_dec c0 b) as [->|]; [congruence|done]. }
  remember (S (String.length s)) as n eqn:Hn.
  assert (Hlen : (String.length s < n)%nat) by lia. clear Hn.
  revert s Hlen. induction n as [|n IH]; intros s Hlen; [lia|].
  destruct s as [|c s']; simp count_occurrences; [done|].
  destruct (occurs_bounded_here lit (String c s')) eqn:Hhere.
  - f_equal. replace (S (String.length lit) - 1)%nat with (String.length lit) by lia.
    pose proof (drop_string_length (String.length lit) s') as Hdrop.
    simpl in Hlen. rewrite IH by lia.
    unfold occurs_bounded_here in Hhere. apply andb_prop in Hhere as [_ Hget].
    simpl in Hget |- *. rewrite Nat.sub_0_r.
    destruct (String.get (String.length lit') s') as [b|] eqn:Hb; [|done].
    apply negb_true_iff in Hget.
    rewrite (drop_string_get _ _ _ Hb). simp count_occurrences.
    by rewrite Hhead.
  - simpl in Hlen. apply IH. lia.
Qed.

Lemma countPattern_literal prefix name content :
  plain prefix = true -> plain name = true ->
  countPattern content (prefix +:+ "\." +:+ name)
  = Ok (Z.of_nat (count_literal (prefix +:+ "." +:+ name) content)).
Proof.
  intros Hp Hn. unfold countPattern, Regexp.FindAllStringIndex.
  rewrite Compile_literal by done.
  set (lit := prefix +:+ "." +:+ name).
  rewrite find_all_atoms; cbn [Regexp.prog drop_string].
  - rewrite length_lits. unfold count_literal.
    by rewrite (count_occurrences_ext _ _ _ _ (atoms_match_literal lit)).
  - apply forallb_atom_lits.
  - unfold lit. rewrite lits_app. destruct (lits prefix); simpl; congruence.
Qed.

Lemma countPattern_bounded c0 prefix name content :
  is_word_char c0 = true ->
  plain (String c0 prefix) = true -> plain name = true ->
  countPattern content (String c0 prefix +:+ "\." +:+ name +:+ "\W")
  = Ok (Z.of_nat (count_bounded (String c0 prefix +:+ "." +:+ name) content)).
Proof.
  intros Hc0 Hp Hn. unfold countPattern, Regexp.FindAllStringIndex.
  rewrite Compile_bounded by done.
  set (lit := String c0 prefix +:+ "." +:+ name).
  rewrite find_all_atoms; cbn [Regexp.prog drop_string].
  - rewrite length_app, length_lits. simpl. rewrite Nat.add_1_r.
    unfold count_bounded.
    rewrite (count_occurrences_ext _ _ _ _ (atoms_match_bounded lit)).
    change lit with (String c0 (prefix +:+ "." +:+ name)).
    by rewrite count_bounded_width.
  - rewrite forallb_app, forallb_atom_lits. done.
  - destruct (lits lit); simpl; congruence.
Qed.

Lemma countPattern_count_of content pattern re :
  Regexp.Compile pattern = Some re ->
  countPattern content pattern = Ok (count_of content pattern).
Proof. intros H. unfold count_of, countPattern. by rewrite H. Qed.

Lemma countPattern_variable content name :
  plain name = true ->
  countPattern content (variable_pattern name)
  = Ok (count_of content (variable_pattern name)).
Proof.
  intros Hn. eapply countPattern_count_of.
  by apply (Compile_bounded "var" name).
Qed.

Lemma countPattern_local content name :
  plain name = true ->
  countPattern content (local_pattern name)
  = Ok (count_of content (local_pattern name)).
Proof.
  intros Hn. eapply countPattern_count_of.
  by apply (Compile_bounded "local" name).
Qed.

Lemma countPattern_module content name :
  plain name = true ->
  countPattern content (module_pattern name)
  = Ok (count_of content (module_pattern name)).
Proof.
  intros Hn. eapply countPattern_count_of.
  by apply (Compile_literal "module" name).
Qed.

Lemma countPattern_data content data_type name :
  plain data_type = true -> plain name = true ->
  countPattern content ("data." +:+ data_type +:+ "." +:+ name)
  = Ok (count_of content ("data." +:+ data_type +:+ "." +:+ name)).
Proof.
  intros Ht Hn. eapply countPattern_count_of. by apply Compile_data_key.
Qed.

(** What the stored counts are, in the words of the specification. *)
Lemma count_of_variable content name :
  plain name = true ->
  count_of content (variable_pattern name)
  = Z.of_nat (count_bounded ("var." +:+ name) content).
Proof.
  intros Hn. unfold count_of, variable_pattern.
  by rewrite (countPattern_bounded "v" "ar" name).
Qed.

Lemma count_of_local content name :
  plain name = true ->
  count_of content (local_pattern name)
  = Z.of_nat (count_bounded ("local." +:+ name) content).
Proof.
  intros Hn. unfold count_of, local_pattern.
  by rewrite (countPattern_bounded "l" "ocal" name).
Qed.

Lemma count_of_module content name :
  plain name = true ->
  count_of content (module_pattern name)
  = Z.of_nat (count_literal ("module." +:+ name) content).
Proof.
  intros Hn. unfold count_of, module_pattern.
  by rewrite (countPattern_literal "module" name).
Qed.

Lemma count_of_nonneg content pattern : (0 <= count_of content pattern)%Z.
Proof.
  unfold count_of, countPattern.
  destruct (Regexp.Compile pattern); lia.
Qed.

(** ** Running the extractor *)

Lemma lookup_set_all val keys (mp : GoMap) k :
  set_all val keys mp !! k = if decide (k ∈ keys) then Some (val k) else mp !! k.
Proof.
  unfold set_all. revert mp. induction keys as [|x keys IH]; intros mp.
  - destruct (decide (k ∈ [])) as [Hin|]; [|done].
    by apply not_elem_of_nil in Hin.
  - cbn [foldl]. rewrite IH.
    destruct (decide (k ∈ keys)) as [Hin|Hnin].
    + by rewrite decide_True by (by right).
    + destruct (decide (k = x)) as [->|Hne].
      * rewrite decide_True by (by left). apply lookup_insert_eq.
      * rewrite decide_False; [by apply lookup_insert_ne|].
        rewrite elem_of_cons. by intros [?|?].
Qed.

Lemma set_all_nil val (mp : GoMap) : set_all val [] mp = mp.
Proof. done. Qed.

Lemma MapStore_ok l k v w mp :
  maps w !! l = Some mp ->
  MapStore l k v w = Ok (tt, store_at l (<[k := v]> mp) w).
Proof. intros H. unfold MapStore, on_map. by rewrite H. Qed.

Lemma store_at_twice l mp1 mp2 w :
  store_at l mp2 (store_at l mp1 w) = store_at l mp2 w.
Proof. unfold store_at. simpl. by rewrite insert_insert_eq. Qed.

Lemma store_at_same l mp w : maps w !! l = Some mp -> store_at l mp w = w.
Proof. intros H. destruct w. unfold store_at. simpl in *. by rewrite insert_id. Qed.

Lemma bind_ok {A B} (c : Go A) (f : A -> Go B) w a w' :
  c w = Ok (a, w') -> (c ≫= f) w = f a w'.
Proof. intros H. unfold mbind, Go_bind. by rewrite H. Qed.

Lemma bind_lift_ok {A B} (r : result A) (f : A -> Go B) w a :
  r = Ok a -> (lift r ≫= f) w = f a w.
Proof. by intros ->. Qed.

(** The loop that stores one count per key. *)
Lemma store_loop {V} l bodyStr (pat : string -> string) (entries : list (string * V)) :
  (forall k, k ∈ entries.*1 ->
     countPattern bodyStr (pat k) = Ok (count_of bodyStr (pat k))) ->
  forall w mp, maps w !! l = Some mp ->
    for_each entries (fun '(attrib, _) =>
      n ← lift (countPattern bodyStr (pat attrib)); MapStore l attrib n) w
    = Ok (tt, store_at l (set_all (fun k => count_of bodyStr (pat k)) entries.*1 mp) w).
Proof.
  induction entries as [|[k v] entries IH]; intros Hok w mp Hl.
  - simpl. by rewrite store_at_same.
  - cbn [for_each]. unfold mbind at 1, Go_bind at 1.
    erewrite bind_lift_ok by (apply Hok; simpl; by left).
    erewrite MapStore_ok by done.
    erewrite IH; [| intros; apply Hok; simpl; by right
                  | unfold store_at; simpl; apply lookup_insert_eq].
    by rewrite store_at_twice.
Qed.

Lemma distinct_ne m :
  distinct m ->
  Variables m <> Locals m /\ Variables m <> Modules m /\ Variables m <> DataBlocks m
  /\ Locals m <> Modules m /\ Locals m <> DataBlocks m /\ Modules m <> DataBlocks m.
Proof.
  unfold distinct. rewrite !NoDup_cons, !not_elem_of_cons. tauto.
Qed.

Lemma holds_store_variables m w r mp :
  distinct m -> holds m w r ->
  holds m (store_at (Variables m) mp w)
    (mkCounts mp (c_locals r) (c_modules r) (c_dataBlocks r)).
Proof.
  intros (?&?&?&?&?&?)%distinct_ne (?&?&?&?). unfold holds, store_at. simpl.
  repeat split; by simplify_map_eq.
Qed.

Lemma holds_store_locals m w r mp :
  distinct m -> holds m w r ->
  holds m (store_at (Locals m) mp w)
    (mkCounts (c_variables r) mp (c_modules r) (c_dataBlocks r)).
Proof.
  intros (?&?&?&?&?&?)%distinct_ne (?&?&?&?). unfold holds, store_at. simpl.
  repeat split; by simplify_map_eq.
Qed.

Lemma holds_store_modules m w r mp :
  distinct m -> holds m w r ->
  holds m (store_at (Modules m) mp w)
    (mkCounts (c_variables r) (c_locals r) mp (c_dataBlocks r)).
Proof.
  intros (?&?&?&?&?&?)%distinct_ne (?&?&?&?). unfold holds, store_at. simpl.
  repeat split; by simplify_map_eq.
Qed.

Lemma holds_store_dataBlocks m w r mp :
  distinct m -> holds m w r ->
  holds m (store_at (DataBlocks m) mp w)
    (mkCounts (c_variables r) (c_locals r) (c_modules r) mp).
Proof.
  intros (?&?&?&?&?&?)%distinct_ne (?&?&?&?). unfold holds, store_at. simpl.
  repeat split; by simplify_map_eq.
Qed.

Ltac decide_types :=
  repeat first [ rewrite decide_True by done
               | rewrite decide_False by (done || congruence) ].

(** One block: the extractor does not panic on a block it can work on,
    and the report changes by [block_effect]. *)
Lemma processBlock_spec m bodyStr b w r :
  distinct m -> holds m w r -> block_ok b = true ->
  exists w', processBlock m bodyStr b w = Ok (tt, w')
             /\ holds m w' (block_effect bodyStr b r)
             /\ stdout w' = stdout w.
Proof.
  intros Hd Hh Hok. pose proof Hh as (Hv & Hl & Hm & Hdb).
  destruct b as [ty labels attrs].
  unfold block_ok, processBlock, block_effect, variable_keys, local_keys,
    module_keys, data_keys in *. cbn [blk_Type blk_Labels blk_Attributes] in *.
  destruct (decide (ty = "data")) as [->|Hnd].
  { destruct labels as [|data_type [|name rest]]; try done.
    apply andb_prop in Hok as [Ht Hn]. decide_types.
    eexists. split; [|split].
    - unfold mbind at 1 2, Go_bind at 1 2.
      erewrite bind_lift_ok by done. erewrite bind_lift_ok by done.
      erewrite bind_lift_ok by (by apply countPattern_data).
      erewrite MapStore_ok by done. reflexivity.
    - cbn [set_all foldl]. destruct r. by apply holds_store_dataBlocks.
    - done. }
  destruct (decide (ty = "module")) as [->|Hnm].
  { destruct labels as [|name rest]; try done. decide_types.
    eexists. split; [|split].
    - unfold mbind at 1 2, Go_bind at 1 2. cbn [mret Go_ret].
      erewrite bind_lift_ok by done.
      erewrite bind_lift_ok by (by apply countPattern_module).
      erewrite MapStore_ok by done. reflexivity.
    - cbn [set_all foldl]. destruct r. by apply holds_store_modules.
    - done. }
  destruct (decide (ty = "variable")) as [->|Hnv].
  { destruct labels as [|name rest]; try done. decide_types.
    eexists. split; [|split].
    - unfold mbind at 1 2, Go_bind at 1 2. cbn [mret Go_ret].
      erewrite bind_lift_ok by done.
      erewrite bind_lift_ok by (by apply countPattern_variable).
      erewrite MapStore_ok by done. reflexivity.
    - cbn [set_all foldl]. destruct r. by apply holds_store_variables.
    - done. }
  destruct (decide (ty = "locals")) as [->|Hnl].
  { decide_types. eexists. split; [|split].
    - unfold mbind at 1 2, Go_bind at 1 2. cbn [mret Go_ret].
      erewrite (store_loop (Locals m) bodyStr (fun k => local_pattern k)) by
        (try done; intros k Hk; apply countPattern_local;
         by eapply (proj1 (forallb_forall _ _) Hok), list_elem_of_In).
      reflexivity.
    - cbn [set_all foldl]. destruct r. by apply holds_store_locals.
    - done. }
  decide_types. exists w. split; [done|]. split; [by destruct r|done].
Qed.

Lemma for_each_blocks m bodyStr blocks :
  distinct m -> forallb block_ok blocks = true ->
  forall w r, holds m w r ->
    exists w', for_each blocks (processBlock m bodyStr) w = Ok (tt, w')
               /\ holds m w' (blocks_effect bodyStr blocks r)
               /\ stdout w' = stdout w.
Proof.
  intros Hd. induction blocks as [|b blocks IH]; intros Hok w r Hh.
  - by exists w.
  - simpl in Hok. apply andb_prop in Hok as [Hb Hok].
    destruct (processBlock_spec m bodyStr b w r Hd Hh Hb) as (w1 & Hrun & Hh1 & Hout1).
    destruct (IH Hok w1 _ Hh1) as (w2 & Hrun2 & Hh2 & Hout2).
    exists w2. split; [|split].
    + cbn [for_each]. by erewrite bind_ok by done.
    + done.
    + congruence.
Qed.

(** The extractor goes through a file of workable blocks without a panic
    and without an error. *)
Lemma processUsage_spec m f w r :
  file m = Some f -> distinct m -> holds m w r ->
  forallb block_ok (file_Blocks f) = true ->
  exists w', processUsage m w = Ok (None, w')
             /\ holds m w' (blocks_effect (file_Bytes f) (file_Blocks f) r)
             /\ stdout w' = stdout w.
Proof.
  intros Hf Hd Hh Hok. unfold processUsage. rewrite Hf.
  destruct (for_each_blocks m (file_Bytes f) _ Hd Hok w r Hh) as (w' & Hrun & Hh' & Hout).
  exists w'. split; [|done]. by erewrite bind_ok by done.
Qed.

Lemma set_all_app val ks1 ks2 (mp : GoMap) :
  set_all val (ks1 ++ ks2) mp = set_all val ks2 (set_all val ks1 mp).
Proof. apply foldl_app. Qed.

Lemma blocks_effect_variables bodyStr blocks r :
  c_variables (blocks_effect bodyStr blocks r)
  = set_all (fun k => count_of bodyStr (variable_pattern k))
      (blocks ≫= variable_keys) (c_variables r).
Proof.
  revert r. induction blocks as [|b blocks IH]; intros r; [done|].
  cbn [blocks_effect foldl]. change (foldl _ ?r0 blocks) with (blocks_effect bodyStr blocks r0).
  rewrite IH. cbn [mbind list_bind]. by rewrite set_all_app.
Qed.

Lemma blocks_effect_locals bodyStr blocks r :
  c_locals (blocks_effect bodyStr blocks r)
  = set_all (fun k => count_of bodyStr (local_pattern k))
      (blocks ≫= local_keys) (c_locals r).
Proof.
  revert r. induction blocks as [|b blocks IH]; intros r; [done|].
  cbn [blocks_effect foldl]. change (foldl _ ?r0 blocks) with (blocks_effect bodyStr blocks r0).
  rewrite IH. cbn [mbind list_bind]. by rewrite set_all_app.
Qed.

Lemma blocks_effect_modules bodyStr blocks r :
  c_modules (blocks_effect bodyStr blocks r)
  = set_all (fun k => count_of bodyStr (module_pattern k))
      (blocks ≫= module_keys) (c_modules r).
Proof.
  revert r. induction blocks as [|b blocks IH]; intros r; [done|].
  cbn [blocks_effect foldl]. change (foldl _ ?r0 blocks) with (blocks_effect bodyStr blocks r0).
  rewrite IH. cbn [mbind list_bind]. by rewrite set_all_app.
Qed.

Lemma blocks_effect_dataBlocks bodyStr blocks r :
  c_dataBlocks (blocks_effect bodyStr blocks r)
  = set_all (fun k => count_of bodyStr k) (blocks ≫= data_keys) (c_dataBlocks r).
Proof.
  revert r. induction blocks as [|b blocks IH]; intros r; [done|].
  cbn [blocks_effect foldl]. change (foldl _ ?r0 blocks) with (blocks_effect bodyStr blocks r0).
  rewrite IH. cbn [mbind list_bind]. by rewrite set_all_app.
Qed.

Lemma NewMap_spec w :
  let l := fresh (dom (maps w)) in
  NewMap w = Ok (l, store_at l ∅ w) /\ maps w !! l = None.
Proof.
  intros l. split; [done|]. apply not_elem_of_dom. apply is_fresh.
Qed.

(** Counts are numbers of matches: none is negative. *)
Lemma set_all_nonneg val keys (mp : GoMap) :
  (forall k, (0 <= val k)%Z) ->
  map_Forall (fun _ count => (0 <= count)%Z) mp ->
  map_Forall (fun _ count => (0 <= count)%Z) (set_all val keys mp).
Proof.
  intros Hval Hmp k v. rewrite lookup_set_all.
  destruct (decide (k ∈ keys)); [|by apply Hmp].
  intros [= <-]. apply Hval.
Qed.

Lemma blocks_effect_nonneg bodyStr blocks r :
  let nonneg := map_Forall (fun (_ : string) count => (0 <= count)%Z) in
  nonneg (c_variables r) /\ nonneg (c_locals r) /\ nonneg (c_modules r)
  /\ nonneg (c_dataBlocks r) ->
  let r' := blocks_effect bodyStr blocks r in
  nonneg (c_variables r') /\ nonneg (c_locals r') /\ nonneg (c_modules r')
  /\ nonneg (c_dataBlocks r').
Proof.
  simpl. revert r. induction blocks as [|b blocks IH]; intros r Hr; [done|].
  apply IH. destruct Hr as (Hv & Hl & Hm & Hd). simpl.
  repeat split; apply set_all_nonneg; auto using count_of_nonneg.
Qed.

Section Construction.
Variable ReadDir : string -> list string * option error.
Variable ReadFile : string -> string * option error.
Variable Join : string -> string -> string.
Variable ParseConfig : string -> File + string.

(** A module whose files load and parse into workable blocks gets its
    report: four maps of its own, filled by the extractor from empty. *)
Lemma NewModuleUsage_spec path w src f :
  LoadTfModule ReadDir ReadFile Join path = (src, None) ->
  ParseConfig src = inl f ->
  forallb block_ok (file_Blocks f) = true ->
  exists m w',
    NewModuleUsage ReadDir ReadFile Join ParseConfig path w = Ok ((Some m, None), w')
    /\ Path m = path /\ file m = Some f /\ distinct m
    /\ holds m w' (blocks_effect (file_Bytes f) (file_Blocks f) empty_counts)
    /\ stdout w' = stdout w.
Proof.
  intros Hload Hparse Hok. unfold NewModuleUsage.
  destruct (NewMap_spec w) as [H1 F1]. set (l1 := fresh (dom (maps w))) in *.
  set (w1 := store_at l1 ∅ w) in *.
  destruct (NewMap_spec w1) as [H2 F2]. set (l2 := fresh (dom (maps w1))) in *.
  set (w2 := store_at l2 ∅ w1) in *.
  destruct (NewMap_spec w2) as [H3 F3]. set (l3 := fresh (dom (maps w2))) in *.
  set (w3 := store_at l3 ∅ w2) in *.
  destruct (NewMap_spec w3) as [H4 F4]. set (l4 := fresh (dom (maps w3))) in *.
  set (w4 := store_at l4 ∅ w3) in *.
  clearbody l1 l2 l3 l4.
  assert (Hne : l1 <> l2 /\ l1 <> l3 /\ l1 <> l4 /\ l2 <> l3 /\ l2 <> l4 /\ l3 <> l4).
  { clear H1 H2 H3 H4. unfold w3, w2, w1, store_at in F2, F3, F4.
    simpl in F2, F3, F4.
    apply lookup_insert_None in F2 as [F2 ?].
    do 2 apply lookup_insert_None in F3 as [F3 ?].
    do 3 apply lookup_insert_None in F4 as [F4 ?].
    repeat split; congruence. }
  rewrite (bind_ok _ _ _ _ _ H1), (bind_ok _ _ _ _ _ H2),
    (bind_ok _ _ _ _ _ H3), (bind_ok _ _ _ _ _ H4).
  rewrite Hload, Hparse. cbn [Path Variables Locals Modules DataBlocks].
  set (m := mkModuleUsage path l1 l2 l3 l4 (Some f)).
  destruct Hne as (?&?&?&?&?&?).
  assert (Hd : distinct m).
  { unfold distinct, m. simpl. rewrite !NoDup_cons, !not_elem_of_cons.
    repeat split; try done; try apply not_elem_of_nil. apply NoDup_nil_2. }
  assert (Hh : holds m w4 empty_counts).
  { unfold holds, m, w4, w3, w2, w1, store_at. simpl.
    repeat split; by simplify_map_eq. }
  destruct (processUsage_spec m f w4 _ eq_refl Hd Hh Hok) as (w' & Hrun & Hh' & Hout).
  exists m, w'. rewrite (bind_ok _ _ _ _ _ Hrun). done.
Qed.

(** No count of a constructed report is negative: every count is a number
    of matches. *)
Lemma NewModuleUsage_nonneg path w src f :
  LoadTfModule ReadDir ReadFile Join path = (src, None) ->
  ParseConfig src = inl f ->
  forallb block_ok (file_Blocks f) = true ->
  exists m w',
    NewModuleUsage ReadDir ReadFile Join ParseConfig path w = Ok ((Some m, None), w')
    /\ forall l, l ∈ [Variables m; Locals m; Modules m] ->
         exists items, maps w' !! l = Some items
                       /\ map_Forall (fun _ count => (0 <= count)%Z) items.
Proof.
  intros Hload Hparse Hok.
  destruct (NewModuleUsage_spec path w src f Hload Hparse Hok)
    as (m & w' & Hrun & _ & _ & _ & (Hv & Hl & Hm & _) & _).
  exists m, w'. split; [done|].
  destruct (blocks_effect_nonneg (file_Bytes f) (file_Blocks f) empty_counts)
    as (Nv & Nl & Nm & _).
  { repeat split; apply map_Forall_empty. }
  intros l Hin. rewrite !elem_of_cons in Hin.
  destruct Hin as [->|[->|[->|Hin]]]; [eauto..|].
  by apply elem_of_nil in Hin.
Qed.
End Construction.

(** ** What the report holds for a declaration *)


Lemma module_keys_label b name :
  blk_Type b = "module" -> blk_Labels b !! 0%nat = Some name ->
  module_keys b = [name].
Proof.
  intros Hty Hl. unfold module_keys. rewrite decide_True by done.
  destruct (blk_Labels b); by simplify_eq/=.
Qed.







Lemma stored_module bodyStr blocks r b name :
  b ∈ blocks -> blk_Type b = "module" -> blk_Labels b !! 0%nat = Some name ->
  c_modules (blocks_effect bodyStr blocks r) !! name
  = Some (count_of bodyStr (module_pattern name)).
Proof.
  intros Hb Hty Hl. rewrite blocks_effect_modules, lookup_set_all.
  rewrite decide_True; [done|]. apply list_elem_of_bind. exists b.
  split; [|done]. rewrite (module_keys_label b name) by done. set_solver.
Qed.


(** ** A literal and a longer one *)

Lemma prefix_split lit s :
  String.prefix lit s = true -> exists t, s = lit +:+ t.
Proof.
  revert s. induction lit as [|a lit IH]; intros s H; [by exists s|].
  destruct s as [|c s]; [done|]. simpl in H.
  destruct (ascii_dec a c) as [->|]; [|done].
  destruct (IH s H) as [t ->]. by exists t.
Qed.

Lemma occurs_here_append lit t : occurs_here lit (lit +:+ t) = true.
Proof.
  unfold occurs_here. induction lit as [|a lit IH]; [by destruct t|].
  change (String a lit +:+ t) with (String a (lit +:+ t)). simpl.
  by destruct (ascii_dec a a).
Qed.

Lemma length_append a b :
  String.length (a +:+ b) = (String.length a + String.length b)%nat.
Proof.
  induction a as [|c a IH]; [done|].
  change (String c a +:+ b) with (String c (a +:+ b)). simpl. by rewrite IH.
Qed.



(** ** Where the matches are *)

Lemma forallb_atom_bounded lit : forallb is_atom (lits lit ++ [not_word]) = true.
Proof. by rewrite forallb_app, forallb_atom_lits. Qed.




(** Whatever the pattern, a reported match starts where the pattern
    matches the rest of the text. *)
Lemma find_all_sound re s pos skip prev se :
  se ∈ Regexp.find_all re s pos skip prev ->
  exists k, se.1 = (pos + k)%nat
            /\ is_Some (Regexp.match_at re (drop_string k s) se.1).
Proof.
  revert pos skip prev. induction s as [|c s IH]; intros pos skip prev Hin.
  - destruct skip; simpl in Hin; [|by apply elem_of_nil in Hin].
    destruct (Regexp.match_at re "" pos) as [[e caps]|] eqn:Hm;
      [|by apply elem_of_nil in Hin].
    destruct ((e =? pos)%nat && bool_decide (prev = Some pos));
      [by apply elem_of_nil in Hin|].
    apply list_elem_of_singleton in Hin as ->. exists 0%nat. simpl.
    rewrite Nat.add_0_r. by rewrite Hm.
  - assert (Hrest : forall skip' prev',
              se ∈ Regexp.find_all re s (S pos) skip' prev' ->
              exists k, se.1 = (pos + k)%nat
                        /\ is_Some (Regexp.match_at re (drop_string k (String c s)) se.1)).
    { intros skip' prev' Hin'. destruct (IH _ _ _ Hin') as (k & Hk & Hm).
      exists (S k). split; [lia|done]. }
    destruct skip as [|skip]; cbn [Regexp.find_all] in Hin; [|by eapply Hrest].
    destruct (Regexp.match_at re (String c s) pos) as [[e caps]|] eqn:Hm;
      [|by eapply Hrest].
    destruct ((e =? pos)%nat && bool_decide (prev = Some pos)); [by eapply Hrest|].
    apply elem_of_cons in Hin as [->|Hin]; [|by eapply Hrest].
    exists 0%nat. simpl. rewrite Nat.add_0_r. by rewrite Hm.
Qed.

Lemma drop_string_append a b : drop_string (String.length a) (a +:+ b) = b.
Proof.
  induction a as [|c a IH]; [by destruct b|].
  change (String c a +:+ b) with (String c (a +:+ b)). by simpl.
Qed.

Lemma get_length_none s : String.get (String.length s) s = None.
Proof. induction s; simpl; auto. Qed.

(** The literal with nothing behind it is no bounded occurrence. *)
Lemma occurs_bounded_at_end lit : occurs_bounded_here lit lit = false.
Proof.
  unfold occurs_bounded_here. rewrite get_length_none. apply andb_false_r.
Qed.

Lemma occurs_bounded_append lit c post :
  is_word_char c = false -> occurs_bounded_here lit (lit +:+ String c post) = true.
Proof.
  intros Hc. unfold occurs_bounded_here.
  pose proof (occurs_here_append lit (String c post)) as Hp.
  unfold occurs_here in Hp. rewrite Hp. simpl.
  rewrite <- get_drop_string, drop_string_append. simpl. by rewrite Hc.
Qed.



(** A map holds one entry per key. *)
Lemma entries_of_key (mp : GoMap) k v :
  mp !! k = Some v ->
  filter (fun kv => kv.1 = k) (map_to_list mp) = [(k, v)].
Proof.
  intros Hk.
  assert (Hperm : map_to_list mp ≡ₚ (k, v) :: map_to_list (delete k mp)).
  { rewrite <- (insert_delete_id mp k v Hk) at 1.
    apply map_to_list_insert, lookup_delete_eq. }
  assert (Hnone : filter (fun kv : string * Z => kv.1 = k)
                    (map_to_list (delete k mp)) = []).
  { assert (Hall : Forall (fun kv : string * Z => kv.1 <> k)
                     (map_to_list (delete k mp))).
    { apply Forall_forall. intros [k' v'] Hin%elem_of_map_to_list Heq.
      simpl in Heq. subst k'. by rewrite lookup_delete_eq in Hin. }
    clear Hperm. induction Hall as [|kv l Hkv _ IH]; [done|].
    by rewrite filter_cons_False by done. }
  apply Permutation_singleton_r. rewrite Hperm.
  rewrite filter_cons_True by done. by rewrite Hnone.
Qed.

(** ** Filtering and display *)

Lemma MapDelete_ok l k w mp :
  maps w !! l = Some mp ->
  MapDelete l k w = Ok (tt, store_at l (delete k mp) w).
Proof. intros H. unfold MapDelete, on_map. by rewrite H. Qed.

Lemma MapEntries_ok l w mp :
  maps w !! l = Some mp -> MapEntries l w = Ok (map_to_list mp, w).
Proof.
  intros H. unfold MapEntries, on_map. rewrite H. simpl.
  by rewrite <- (store_at_same l mp w H) at 3.
Qed.

Lemma MapLen_ok l w mp :
  maps w !! l = Some mp -> MapLen l w = Ok (Z.of_nat (size mp), w).
Proof.
  intros H. unfold MapLen, on_map. rewrite H. simpl.
  by rewrite <- (store_at_same l mp w H) at 3.
Qed.

Lemma filter_loop l entries :
  forall w mp, maps w !! l = Some mp ->
    for_each entries (fun '(name, count) =>
      if (0 <? count)%Z then MapDelete l name else mret tt) w
    = Ok (tt, store_at l (delete_used entries mp) w).
Proof.
  induction entries as [|[name count] entries IH]; intros w mp Hl.
  - simpl. by rewrite store_at_same.
  - cbn [for_each delete_used foldl]. destruct (0 <? count)%Z.
    + erewrite bind_ok by (by apply MapDelete_ok).
      erewrite IH by (unfold store_at; simpl; apply lookup_insert_eq).
      by rewrite store_at_twice.
    + erewrite bind_ok by done. by apply IH.
Qed.

Lemma delete_used_cons name count entries (mp : GoMap) :
  delete_used ((name, count) :: entries) mp
  = delete_used entries (if (0 <? count)%Z then delete name mp else mp).
Proof. done. Qed.

Lemma lookup_delete_used_None entries (mp : GoMap) k :
  mp !! k = None -> delete_used entries mp !! k = None.
Proof.
  revert mp. induction entries as [|[name count] entries IH]; intros mp Hk; [done|].
  rewrite delete_used_cons. apply IH. destruct (0 <? count)%Z; [|done].
  rewrite lookup_delete. by case_decide.
Qed.

Lemma lookup_delete_used_gone entries (mp : GoMap) k v :
  (k, v) ∈ entries -> (0 < v)%Z -> delete_used entries mp !! k = None.
Proof.
  revert mp. induction entries as [|[name count] entries IH]; intros mp Hin Hv.
  - by apply elem_of_nil in Hin.
  - rewrite delete_used_cons. apply elem_of_cons in Hin as [[= <- <-]|Hin].
    + apply lookup_delete_used_None.
      destruct (Z.ltb_spec 0 v); [|lia]. apply lookup_delete_eq.
    + by apply IH.
Qed.

Lemma lookup_delete_used_kept entries (mp : GoMap) k :
  (forall v, (k, v) ∈ entries -> ~ (0 < v)%Z) ->
  delete_used entries mp !! k = mp !! k.
Proof.
  revert mp. induction entries as [|[name count] entries IH]; intros mp Hall; [done|].
  rewrite delete_used_cons. rewrite IH by (intros v Hv; apply Hall; by right).
  destruct (Z.ltb_spec 0 count) as [Hpos|]; [|done].
  apply lookup_delete_ne. intros ->. apply (Hall count); [by left|done].
Qed.

(** The loop keeps the entries that are not above zero. *)
Lemma delete_used_filter (items : GoMap) :
  delete_used (map_to_list items) items
  = filter (fun kv => ~ (0 < kv.2)%Z) items.
Proof.
  apply map_eq. intros k.
  destruct (items !! k) as [v|] eqn:Hk.
  - destruct (decide (0 < v)%Z) as [Hpos|Hnpos].
    + rewrite (lookup_delete_used_gone _ _ k v); [|by apply elem_of_map_to_list|done].
      symmetry. apply map_lookup_filter_None. right. intros v' Hv'.
      assert (v' = v) as -> by congruence. simpl. tauto.
    + rewrite lookup_delete_used_kept.
      * rewrite Hk. symmetry. by apply map_lookup_filter_Some.
      * intros v' Hin%elem_of_map_to_list. congruence.
  - rewrite lookup_delete_used_None by done.
    symmetry. apply map_lookup_filter_None. by left.
Qed.

Lemma filterUnusedOnly_spec l w items :
  maps w !! l = Some items ->
  filterUnusedOnly l w
  = Ok (l, store_at l (filter (fun kv => ~ (0 < kv.2)%Z) items) w).
Proof.
  intros Hl. unfold filterUnusedOnly.
  erewrite bind_ok by (by apply MapEntries_ok).
  erewrite bind_ok by (by apply filter_loop).
  by rewrite delete_used_filter.
Qed.

(** Where no count is negative, what is kept is what is zero. *)
Lemma filter_zero (items : GoMap) :
  (forall k v, items !! k = Some v -> (0 <= v)%Z) ->
  filter (fun kv => ~ (0 < kv.2)%Z) items = filter (fun kv => kv.2 = 0%Z) items.
Proof.
  intros Hnonneg. apply map_filter_strong_ext. intros k v. simpl.
  split; intros [Hv Hk]; (split; [|done]); specialize (Hnonneg k v Hk); lia.
Qed.

Lemma reads_only_ret {A} P (a : A) (Q : A -> Prop) :
  Q a -> reads_only P (mret a) Q.
Proof. intros Ha w _. by exists a, w. Qed.

Lemma reads_only_bind {A B} P (c : Go A) (f : A -> Go B) Q1 Q2 :
  reads_only P c Q1 -> (forall a, Q1 a -> reads_only P (f a) Q2) ->
  reads_only P (c ≫= f) Q2.
Proof.
  intros Hc Hf w HP. destruct (Hc w HP) as (a & w1 & Hrun & Hmaps & Ha).
  destruct (Hf a Ha w1) as (b & w2 & Hrun2 & Hmaps2 & Hb); [by rewrite Hmaps|].
  exists b, w2. split; [by erewrite bind_ok by done|]. split; [congruence|done].
Qed.

Lemma reads_only_Printf P line : reads_only P (Printf line) (fun _ => True).
Proof. intros w _. by eexists tt, _. Qed.

Lemma reads_only_MapLen P l :
  (forall h, P h -> is_Some (h !! l)) -> reads_only P (MapLen l) (fun _ => True).
Proof.
  intros Hl w HP. destruct (Hl _ HP) as [mp Hmp].
  eexists _, w. by rewrite (MapLen_ok l w mp).
Qed.

Lemma reads_only_for_each {A} P (xs : list A) body :
  (forall x, reads_only P (body x) (fun _ => True)) ->
  reads_only P (for_each xs body) (fun _ => True).
Proof.
  intros Hbody. induction xs as [|x xs IH].
  - by apply reads_only_ret.
  - cbn [for_each]. eapply reads_only_bind; [apply Hbody|done].
Qed.

Lemma reads_only_print_entries P fmt l :
  (forall h, P h -> is_Some (h !! l)) ->
  reads_only P (print_entries fmt l) (fun _ => True).
Proof.
  intros Hl. unfold print_entries.
  apply reads_only_bind with (Q1 := fun _ => True).
  - intros w HP. destruct (Hl _ HP) as [mp Hmp].
    eexists _, w. by rewrite (MapEntries_ok l w mp).
  - intros entries _. apply reads_only_for_each. intros [name count].
    apply reads_only_Printf.
Qed.

Lemma reads_only_when P b c :
  reads_only P c (fun _ => True) -> reads_only P (when b c) (fun _ => True).
Proof. intros Hc. destruct b; [done|]. by apply reads_only_ret. Qed.

(** The printing half of [Display]. *)
Ltac prints :=
  repeat first
    [ apply reads_only_Printf
    | apply reads_only_when
    | apply reads_only_print_entries; tauto
    | apply reads_only_MapLen; tauto
    | apply reads_only_ret; done
    | eapply reads_only_bind with (Q1 := fun _ => True); [|intros ? _] ].

(** ** Display *)

(** A new map is empty, and the maps there were stay as they are. *)
Lemma NewMap_keeps w :
  exists l w', NewMap w = Ok (l, w')
    /\ maps w' !! l = Some ∅ /\ stdout w' = stdout w
    /\ (forall l0, is_Some (maps w !! l0) -> maps w' !! l0 = maps w !! l0).
Proof.
  destruct (NewMap_spec w) as [Hrun Hfresh]. eexists _, _.
  split; [exact Hrun|]. unfold store_at. simpl.
  split; [apply lookup_insert_eq|]. split; [done|].
  intros l0 [mp Hl0]. apply lookup_insert_ne. congruence.
Qed.

(** The three maps [Display] makes before its switch. *)
Lemma Display_maps w :
  exists variables locals modules w3,
    (forall A (k : loc -> loc -> loc -> Go A),
       (variables ← NewMap; locals ← NewMap; modules ← NewMap;
        k variables locals modules) w = k variables locals modules w3)
    /\ maps w3 !! variables = Some ∅ /\ maps w3 !! locals = Some ∅
    /\ maps w3 !! modules = Some ∅ /\ stdout w3 = stdout w
    /\ (forall l0, is_Some (maps w !! l0) -> maps w3 !! l0 = maps w !! l0).
Proof.
  destruct (NewMap_keeps w) as (l1 & w1 & H1 & E1 & O1 & K1).
  destruct (NewMap_keeps w1) as (l2 & w2 & H2 & E2 & O2 & K2).
  destruct (NewMap_keeps w2) as (l3 & w3 & H3 & E3 & O3 & K3).
  exists l1, l2, l3, w3. split; [|split; [|split; [|split; [|split]]]].
  - intros A k.
    by rewrite (bind_ok _ _ _ _ _ H1), (bind_ok _ _ _ _ _ H2), (bind_ok _ _ _ _ _ H3).
  - rewrite K3, K2; [done|by rewrite E1|by rewrite K2, E1].
  - rewrite K3; [done|by rewrite E2].
  - done.
  - congruence.
  - intros l0 Hl0. rewrite K3, K2, K1; [done..| |].
    + by rewrite K1.
    + by rewrite K2, K1 by (by rewrite ?K1).
Qed.

Ltac run_prints P :=
  match goal with
  | |- exists w', ?c ?w = Ok (None, w') /\ _ =>
      let H := fresh "Hprints" in
      assert (H : reads_only P c (fun a => a = None)) by prints;
      let a := fresh "a" in let w' := fresh "w'" in
      let Hrun := fresh "Hrun" in let Hmaps := fresh "Hmaps" in
      destruct (H w) as (a & w' & Hrun & Hmaps & ->);
      [ | exists w'; split; [exact Hrun|rewrite Hmaps] ]
  end.

Lemma Display_locals_unused m w items :
  maps w !! Locals m = Some items ->
  exists w', Display m DisplayType.Locals true w = Ok (None, w')
             /\ maps w' !! Locals m = Some (filter (fun kv => ~ (0 < kv.2)%Z) items).
Proof.
  intros Hl. unfold Display.
  destruct (Display_maps w) as (l1 & l2 & l3 & w3 & Hrun & E1 & E2 & E3 & O3 & K3).
  rewrite Hrun. clear Hrun.
  rewrite decide_True by done.
  assert (Hl3 : maps w3 !! Locals m = Some items) by (by rewrite K3).
  erewrite bind_ok; cycle 1.
  { erewrite bind_ok by (by apply filterUnusedOnly_spec). reflexivity. }
  cbv iota beta.
  run_prints (fun h : gmap loc GoMap =>
    is_Some (h !! Locals m) /\ is_Some (h !! l1) /\ is_Some (h !! l3)).
  - unfold store_at. simpl. rewrite lookup_insert_eq.
    split; [done|].
    split; (apply lookup_insert_is_Some'; right); [by rewrite E1|by rewrite E3].
  - unfold store_at. simpl. apply lookup_insert_eq.
Qed.

Lemma Display_variables_unused m w items :
  maps w !! Variables m = Some items ->
  exists w', Display m DisplayType.Variables true w = Ok (None, w')
             /\ maps w' !! Variables m
                = Some (filter (fun kv => ~ (0 < kv.2)%Z) items).
Proof.
  intros Hl. unfold Display.
  destruct (Display_maps w) as (l1 & l2 & l3 & w3 & Hrun & E1 & E2 & E3 & O3 & K3).
  rewrite Hrun. clear Hrun.
  rewrite decide_False by done. rewrite decide_True by done.
  assert (Hl3 : maps w3 !! Variables m = Some items) by (by rewrite K3).
  erewrite bind_ok; cycle 1.
  { erewrite bind_ok by (by apply filterUnusedOnly_spec). reflexivity. }
  cbv iota beta.
  run_prints (fun h : gmap loc GoMap =>
    is_Some (h !! Variables m) /\ is_Some (h !! l2) /\ is_Some (h !! l3)).
  - unfold store_at. simpl. rewrite lookup_insert_eq.
    split; [done|].
    split; (apply lookup_insert_is_Some'; right); [by rewrite E2|by rewrite E3].
  - unfold store_at. simpl. apply lookup_insert_eq.
Qed.

(** ** Loading *)

Lemma append_assoc (a b c : string) : (a +:+ b) +:+ c = a +:+ b +:+ c.
Proof.
  induction a as [|x a IH]; [done|].
  cbv [String.append]. fold String.append. by rewrite IH.
Qed.

Lemma newline_first_cons t rest :
  newline_first (t :: rest) = nl +:+ t +:+ newline_first rest.
Proof.
  unfold newline_first. destruct rest as [|t' rest]; [|done].
  simpl. by rewrite append_nil_r.
Qed.

Section Loader.
Variable ReadFile : string -> string * option error.
Variable Join : string -> string -> string.

Lemma load_files_contents path names out :
  Forall (fun file_name => (ReadFile (Join path file_name)).2 = None)
    (tf_names names) ->
  load_files ReadFile Join path names out
  = (out +:+ newline_first (contents ReadFile Join path names), None).
Proof.
  revert out. induction names as [|file_name names IH]; intros out Hread.
  - simpl. by rewrite append_nil_r.
  - simpl. unfold contents, tf_names in *. rewrite filter_cons in *.
    destruct (decide (Ext file_name = ".tf")) as [Htf|Hother]; [|by apply IH].
    apply Forall_cons in Hread as [Hfile Hread].
    destruct (ReadFile (Join path file_name)) as [data err] eqn:Hdata.
    simpl in Hfile. subst err. rewrite IH by done.
    rewrite fmap_cons, newline_first_cons, Hdata. simpl.
    by rewrite !append_assoc.
Qed.
End Loader.

(** * The claims *)

(** ** Counting references *)

(** C1 (the code departs from this claim).  The key [data.<type>.<name>]
    of a data block is handed to [countPattern] as it is, so its two dots
    are read as "any character".  In the sample module the key never
    occurs as literal text, the name of an output spells it with [_] in
    place of the dots, and the report holds the count 1. *)
Theorem C1_data_key_read_as_pattern :
  stored DataBlocks "data.null_data_source.values" (construct data_text data_blocks)
  = Some 1%Z
  /\ count_literal "data.null_data_source.values" (nl +:+ data_text) = 0%nat.
Proof. split; by vm_compute. Qed.

Section Reports.
Variable ReadDir : string -> list string * option error.
Variable ReadFile : string -> string * option error.
Variable Join : string -> string -> string.
Variable ParseConfig : string -> File + string.



(** C8. When a module text declares two module blocks named [test], the
    constructed report has exactly one entry under [test] in its modules
    mapping; its count is the one [countPattern] computes for the name
    of the later block; construction ends without an error.  In the
    sample module that count is 2. *)
Theorem C8_duplicate_module path w src f before b1 between b2 after :
  LoadTfModule ReadDir ReadFile Join path = (src, None) ->
  ParseConfig src = inl f ->
  forallb block_ok (file_Blocks f) = true ->
  file_Blocks f = before ++ b1 :: between ++ b2 :: after ->
  blk_Type b1 = "module" -> blk_Labels b1 !! 0%nat = Some "test" ->
  blk_Type b2 = "module" -> blk_Labels b2 !! 0%nat = Some "test" ->
  (exists m w' modules count,
     NewModuleUsage ReadDir ReadFile Join ParseConfig path w
     = Ok ((Some m, None), w')
     /\ maps w' !! Modules m = Some modules
     /\ countPattern (file_Bytes f) ("module\." +:+ "test") = Ok count
     /\ filter (fun kv => kv.1 = "test") (map_to_list modules) = [("test", count)])
  /\ stored Modules "test" (construct twice_text twice_blocks) = Some 2%Z.
Proof.
  intros Hload Hparse Hok Hblocks Hty1 Hl1 Hty2 Hl2. split; [|by vm_compute].
  destruct (NewModuleUsage_spec ReadDir ReadFile Join ParseConfig path w src f
              Hload Hparse Hok) as (m & w' & Hrun & _ & _ & _ & Hh & _).
  destruct Hh as (_ & _ & Hm & _). eexists m, w', _, _.
  split; [done|]. split; [done|]. split.
  - by apply countPattern_module.
  - apply entries_of_key. apply (stored_module _ _ _ b2); [|done..].
    rewrite Hblocks. set_solver.
Qed.

End Reports.

(** C10. A reference at the very end of the text, with no character
    behind it, is not counted: for the pattern of a variable or of a local
    named [name], no match that [FindAllStringIndex] reports starts where
    the last characters [var.<name>] (or [local.<name>]) of a text start.
    The sample module declares the variable [x], ends on the characters
    [var.x], and gives [x] the count 0. *)
Theorem C10_reference_at_end name :
  plain name = true ->
  (forall pre re se,
     Regexp.Compile (variable_pattern name) = Some re ->
     se ∈ Regexp.FindAllStringIndex re (pre +:+ "var." +:+ name) ->
     se.1 <> String.length pre)
  /\ (forall pre re se,
        Regexp.Compile (local_pattern name) = Some re ->
        se ∈ Regexp.FindAllStringIndex re (pre +:+ "local." +:+ name) ->
        se.1 <> String.length pre)
  /\ (exists pre, nl +:+ end_text = pre +:+ "var.x")
  /\ stored Variables "x" (construct end_text end_blocks) = Some 0%Z.
Proof.
  intros Hplain.
  assert (Hend : forall prefix pre re se,
            plain prefix = true ->
            Regexp.Compile (prefix +:+ "\." +:+ name +:+ "\W") = Some re ->
            se ∈ Regexp.FindAllStringIndex re (pre +:+ prefix +:+ "." +:+ name) ->
            se.1 <> String.length pre).
  { intros prefix pre re se Hp Hre Hin Hse.
    rewrite Compile_bounded in Hre by done. injection Hre as <-.
    destruct (find_all_sound _ _ _ _ _ _ Hin) as (k & Hk & Hm).
    simpl in Hk. rewrite Hse in Hk. subst k.
    rewrite drop_string_append, match_at_atoms in Hm
      by apply forallb_atom_bounded.
    cbn [Regexp.prog] in Hm.
    rewrite atoms_match_bounded, occurs_bounded_at_end in Hm.
    by destruct Hm. }
  split; [|split; [|split]].
  - intros pre re se Hre Hin. by apply (Hend "var" pre re se).
  - intros pre re se Hre Hin. by apply (Hend "local" pre re se).
  - by exists (nl +:+ "variable " +:+ quoted "x" +:+ " {}" +:+ nl +:+ "y = ").
  - by vm_compute.
Qed.

(** The claims above at the sample modules. *)



Lemma C8_duplicate_module_witness :
  exists m w' modules count,
    construct twice_text twice_blocks = Ok ((Some m, None), w')
    /\ maps w' !! Modules m = Some modules
    /\ countPattern (nl +:+ twice_text) ("module\." +:+ "test") = Ok count
    /\ filter (fun kv => kv.1 = "test") (map_to_list modules) = [("test", count)].
Proof.
  apply (proj1 (C8_duplicate_module one_file (reads twice_text) slash
    (parses_to twice_blocks) "mod" (mkWorld ∅ []) (nl +:+ twice_text)
    (mkFile (nl +:+ twice_text) twice_blocks)
    []
    (mkBlock "module" ["test"] (<["source" := string_literal "./1"]> ∅))
    []
    (mkBlock "module" ["test"] (<["source" := string_literal "./1"]> ∅))
    [ mkBlock "output" ["test"] (<["value" := outputs_test]> ∅);
      mkBlock "output" ["test2"] (<["value" := outputs_test]> ∅) ]
    eq_refl eq_refl eq_refl eq_refl eq_refl eq_refl eq_refl eq_refl)).
Defined.


Lemma C10_reference_at_end_witness :
  from_option
    (fun re => Forall (fun se => se.1 <> String.length "y = ")
                 (Regexp.FindAllStringIndex re ("y = " +:+ "var." +:+ "x")))
    False (Regexp.Compile (variable_pattern "x")).
Proof.
  destruct (Regexp.Compile (variable_pattern "x")) as [re|] eqn:Hre;
    [|by vm_compute in Hre].
  simpl. apply Forall_forall. intros se Hin.
  exact (proj1 (C10_reference_at_end "x" eq_refl) "y = " re se Hre Hin).
Defined.

(** ** Module sources *)

(** C5. [parseModuleSource] on an attribute whose value is the single
    quoted literal [git::https://example.com/mod.git?ref=v1.2.3] gives the
    path [git::https://example.com/mod.git] and the version [1.2.3]; on the
    single quoted literal [./local/path] it gives that text as the path and
    an empty version; on any attribute whose value is not a single quoted
    literal it gives two empty strings. *)
Theorem C5_module_source a :
  (quoted_literal a = Some "git::https://example.com/mod.git?ref=v1.2.3" ->
   parseModuleSource a = Ok ("git::https://example.com/mod.git", "1.2.3"))
  /\ (quoted_literal a = Some "./local/path" ->
      parseModuleSource a = Ok ("./local/path", ""))
  /\ (quoted_literal a = None -> parseModuleSource a = Ok ("", "")).
Proof.
  unfold parseModuleSource, quoted_literal.
  destruct (MustCompile _) as [re|] eqn:Hre; [|by vm_compute in Hre].
  destruct a as [tokens]. simpl.
  destruct tokens as [|[t0 b0] [|[t1 b1] [|[t2 b2] [|t3 tokens]]]];
    try (by repeat split).
  all: destruct t0; try (by repeat split).
  all: destruct t1; try (by repeat split).
  all: destruct t2; try (by repeat split).
  simpl. repeat split; [| |done]; intros [= ->];
    injection Hre as <-; by vm_compute.
Qed.

Lemma C5_module_source_witness :
  parseModuleSource (string_literal "git::https://example.com/mod.git?ref=v1.2.3")
  = Ok ("git::https://example.com/mod.git", "1.2.3")
  /\ parseModuleSource (string_literal "./local/path") = Ok ("./local/path", "")
  /\ parseModuleSource (reference "var" "source") = Ok ("", "").
Proof.
  split; [|split].
  - apply (proj1 (C5_module_source _)). reflexivity.
  - apply (proj1 (proj2 (C5_module_source _))). reflexivity.
  - apply (proj2 (proj2 (C5_module_source _))). reflexivity.
Defined.

(** ** The loader *)

(** C7, as the specification states it, fails: for a directory with the
    configuration files [a.tf] and [b.tf] the loader returns a text that
    starts with a newline, not the two contents with a newline between
    them only. *)
Lemma C7_newline_before_first_file :
  LoadTfModule two_files by_name slash "mod"
  = (nl +:+ "x = 1" +:+ nl +:+ "y = 2", None)
  /\ LoadTfModule two_files by_name slash "mod"
     <> (join_newline (contents by_name slash "mod" (two_files "mod").1), None).
Proof. split; [by vm_compute|]. vm_compute. discriminate. Qed.

Section Loaded.
Variable ReadDir : string -> list string * option error.
Variable ReadFile : string -> string * option error.
Variable Join : string -> string -> string.

(** C7, amended. When the directory can be listed and each of its
    configuration files can be read, the loader returns, with no error,
    the contents of the [.tf] entries in the order of the listing, one
    newline between each two of them and one more newline before the
    first; nothing follows the last.  A directory with no configuration
    file gives the empty text and no error. *)
Theorem C7_loaded_text path names :
  ReadDir path = (names, None) ->
  Forall (fun file_name => (ReadFile (Join path file_name)).2 = None)
    (tf_names names) ->
  LoadTfModule ReadDir ReadFile Join path
  = (newline_first (contents ReadFile Join path names), None)
  /\ (tf_names names = [] ->
      LoadTfModule ReadDir ReadFile Join path = ("", None)).
Proof.
  intros Hdir Hread. unfold LoadTfModule. rewrite Hdir.
  rewrite (load_files_contents ReadFile Join path names "" Hread).
  split; [done|]. intros Hnone. unfold contents. by rewrite Hnone.
Qed.
End Loaded.

Lemma C7_loaded_text_witness :
  LoadTfModule two_files by_name slash "mod"
  = (newline_first ["x = 1"; "y = 2"], None).
Proof.
  refine (proj1 (C7_loaded_text two_files by_name slash "mod"
                   ["a.tf"; "b.tf"; "notes.md"] eq_refl _)).
  vm_compute. repeat constructor.
Defined.

(** ** Filtering and display *)

(** C3. The UnusedOnly filter works on the mapping it is given, not on a
    copy: called on a mapping of a report whose counts are not negative
    (as counts of matches are), [filterUnusedOnly] returns that same
    mapping and leaves in the heap, in its place, exactly the entries
    whose count is zero, every other map and the output being as before;
    reading the mapping afterwards gives those entries only.  [Display]
    with the filter on narrows the mapping of the chosen axis in this
    way. *)
Theorem C3_filter_in_place m w l items :
  l ∈ [Variables m; Locals m; Modules m] ->
  maps w !! l = Some items ->
  map_Forall (fun _ count => (0 <= count)%Z) items ->
  let unused := filter (fun kv => kv.2 = 0%Z) items in
  filterUnusedOnly l w = Ok (l, store_at l unused w)
  /\ MapEntries l (store_at l unused w) = Ok (map_to_list unused, store_at l unused w)
  /\ (l = Locals m ->
      exists w', Display m DisplayType.Locals true w = Ok (None, w')
                 /\ maps w' !! l = Some unused)
  /\ (l = Variables m ->
      exists w', Display m DisplayType.Variables true w = Ok (None, w')
                 /\ maps w' !! l = Some unused).
Proof.
  intros _ Hl Hnonneg unused. subst unused.
  rewrite <- (filter_zero items Hnonneg).
  split; [by apply filterUnusedOnly_spec|]. split; [|split].
  - apply MapEntries_ok. unfold store_at. simpl. apply lookup_insert_eq.
  - intros ->. by apply Display_locals_unused.
  - intros ->. by apply Display_variables_unused.
Qed.

Lemma C3_filter_in_place_witness :
  filterUnusedOnly 2%positive sample_world
  = Ok (2%positive,
        store_at 2%positive (filter (fun kv => kv.2 = 0%Z) sample_locals) sample_world).
Proof.
  refine (proj1 (C3_filter_in_place sample_report sample_world 2%positive
                   sample_locals _ eq_refl _)).
  - apply list_elem_of_further, list_elem_of_here.
  - unfold sample_locals.
    repeat (apply map_Forall_insert_2; [lia|]). apply map_Forall_empty.
Defined.

(** C6. A display type other than [all], [variables] and [locals] makes
    [Display] return an error that names it; nothing is printed, and every
    map there was, the mappings of the report among them, is as before: no
    filtering comes before the check of the display type. *)
Theorem C6_invalid_display_type m dType unusedOnly w :
  dType <> DisplayType.All -> dType <> DisplayType.Variables ->
  dType <> DisplayType.Locals ->
  exists w',
    Display m dType unusedOnly w
    = Ok (Some (dType +:+ " is an invalid display Type"), w')
    /\ stdout w' = stdout w
    /\ (forall l, is_Some (maps w !! l) -> maps w' !! l = maps w !! l).
Proof.
  intros Hall Hvariables Hlocals. unfold Display.
  destruct (Display_maps w) as (l1 & l2 & l3 & w3 & Hrun & _ & _ & _ & O3 & K3).
  rewrite Hrun. rewrite !decide_False by done. by exists w3.
Qed.

Lemma C6_invalid_display_type_witness :
  exists w',
    Display sample_report "modules" true sample_world
    = Ok (Some "modules is an invalid display Type", w')
    /\ stdout w' = stdout sample_world
    /\ (forall l, is_Some (maps sample_world !! l) ->
                  maps w' !! l = maps sample_world !! l).
Proof.
  apply (C6_invalid_display_type sample_report "modules" true sample_world);
    discriminate.
Defined.

(** * Further properties *)

(** ** File names *)





(** ** Failures of the loader and of the construction *)

Lemma NewMaps_four w :
  exists l1 l2 l3 l4 w4,
    (forall A (k : loc -> loc -> loc -> loc -> Go A),
       (variables ← NewMap; locals ← NewMap; modules ← NewMap;
        dataBlocks ← NewMap; k variables locals modules dataBlocks) w
       = k l1 l2 l3 l4 w4)
    /\ stdout w4 = stdout w
    /\ (forall l0, is_Some (maps w !! l0) -> maps w4 !! l0 = maps w !! l0).
Proof.
  destruct (NewMap_keeps w) as (l1 & w1 & H1 & E1 & O1 & K1).
  destruct (NewMap_keeps w1) as (l2 & w2 & H2 & E2 & O2 & K2).
  destruct (NewMap_keeps w2) as (l3 & w3 & H3 & E3 & O3 & K3).
  destruct (NewMap_keeps w3) as (l4 & w4 & H4 & E4 & O4 & K4).
  exists l1, l2, l3, l4, w4. split; [|split].
  - intros A k.
    by rewrite (bind_ok _ _ _ _ _ H1), (bind_ok _ _ _ _ _ H2),
      (bind_ok _ _ _ _ _ H3), (bind_ok _ _ _ _ _ H4).
  - congruence.
  - intros l0 Hl0.
    assert (is_Some (maps w1 !! l0)) by (by rewrite K1).
    assert (is_Some (maps w2 !! l0)) by (by rewrite K2).
    assert (is_Some (maps w3 !! l0)) by (by rewrite K3).
    by rewrite K4, K3, K2, K1.
Qed.

Section Failures.
Variable ReadDir : string -> list string * option error.
Variable ReadFile : string -> string * option error.
Variable Join : string -> string -> string.
Variable ParseConfig : string -> File + string.

Lemma load_files_app path before rest out :
  Forall (fun file_name => (ReadFile (Join path file_name)).2 = None)
    (tf_names before) ->
  load_files ReadFile Join path (before ++ rest) out
  = load_files ReadFile Join path rest
      (out +:+ newline_first (contents ReadFile Join path before)).
Proof.
  revert out. induction before as [|file_name before IH]; intros out Hread.
  - simpl. by rewrite append_nil_r.
  - simpl. unfold contents, tf_names in *. rewrite filter_cons in *.
    destruct (decide (Ext file_name = ".tf")) as [Htf|Hother]; [|by apply IH].
    apply Forall_cons in Hread as [Hfile Hread].
    destruct (ReadFile (Join path file_name)) as [data err] eqn:Hdata.
    simpl in Hfile. subst err. rewrite IH by done.
    rewrite fmap_cons, newline_first_cons, Hdata. simpl.
    by rewrite !append_assoc.
Qed.

(** When a configuration file cannot be read, the loader stops there: it
    returns the error of that file together with the text of the files it
    read before, and what comes behind in the directory plays no part. *)
Theorem LoadTfModule_read_error path before bad after data e :
  ReadDir path = (before ++ bad :: after, None) ->
  Forall (fun file_name => (ReadFile (Join path file_name)).2 = None)
    (tf_names before) ->
  Ext bad = ".tf" ->
  ReadFile (Join path bad) = (data, Some e) ->
  LoadTfModule ReadDir ReadFile Join path
  = (newline_first (contents ReadFile Join path before), Some e).
Proof.
  intros Hdir Hread Htf Hbad. unfold LoadTfModule. rewrite Hdir.
  rewrite load_files_app by done. simpl.
  by rewrite decide_True, Hbad by done.
Qed.

(** A failure of the loader or of the parser ends the construction with
    that error and without a report: the error of the loader is passed on
    as it is, the diagnostics of the parser come behind the path and a
    colon.  Nothing is printed and no map there was is touched. *)
Theorem NewModuleUsage_failure path w src :
  (forall e, LoadTfModule ReadDir ReadFile Join path = (src, Some e) ->
     exists w',
       NewModuleUsage ReadDir ReadFile Join ParseConfig path w
       = Ok ((None, Some e), w')
       /\ stdout w' = stdout w
       /\ (forall l, is_Some (maps w !! l) -> maps w' !! l = maps w !! l))
  /\ (forall diags, LoadTfModule ReadDir ReadFile Join path = (src, None) ->
        ParseConfig src = inr diags ->
        exists w',
          NewModuleUsage ReadDir ReadFile Join ParseConfig path w
          = Ok ((None, Some (path +:+ ":" +:+ diags)), w')
          /\ stdout w' = stdout w
          /\ (forall l, is_Some (maps w !! l) -> maps w' !! l = maps w !! l)).
Proof.
  destruct (NewMaps_four w) as (l1 & l2 & l3 & l4 & w4 & Hrun & Hout & Hkeep).
  split.
  - intros e Hload. exists w4. unfold NewModuleUsage.
    rewrite Hrun, Hload. by repeat split.
  - intros diags Hload Hparse. exists w4. unfold NewModuleUsage.
    rewrite Hrun, Hload. simpl. rewrite Hparse. by repeat split.
Qed.
End Failures.

Lemma LoadTfModule_read_error_witness :
  LoadTfModule three_files by_name slash "mod" = (nl +:+ "x = 1", Some "no such file").
Proof.
  apply (LoadTfModule_read_error three_files by_name slash "mod"
           ["a.tf"] "c.tf" ["b.tf"] "" "no such file" eq_refl).
  - vm_compute. repeat constructor.
  - reflexivity.
  - reflexivity.
Defined.

Lemma NewModuleUsage_failure_witness :
  (exists w',
     NewModuleUsage unlisted by_name slash (parses_to []) "mod" (mkWorld ∅ [])
     = Ok ((None, Some "permission denied"), w'))
  /\ (exists w',
        NewModuleUsage one_file (reads "x = ") slash (refuses "Invalid expression")
          "mod" (mkWorld ∅ [])
        = Ok ((None, Some "mod:Invalid expression"), w')).
Proof.
  split.
  - destruct (proj1 (NewModuleUsage_failure unlisted by_name slash (parses_to [])
                       "mod" (mkWorld ∅ []) "") "permission denied" eq_refl)
      as (w' & Hrun & _).
    by exists w'.
  - destruct (proj2 (NewModuleUsage_failure one_file (reads "x = ") slash
                       (refuses "Invalid expression") "mod" (mkWorld ∅ [])
                       (nl +:+ "x = ")) "Invalid expression" eq_refl eq_refl)
      as (w' & Hrun & _).
    by exists w'.
Defined.

(** ** Module sources *)



(** ** Filtering twice *)

Lemma kept_kept (items : GoMap) : kept (kept items) = kept items.
Proof.
  unfold kept. apply map_eq. intros k. apply option_eq. intros v.
  rewrite !map_lookup_filter_Some. tauto.
Qed.

Lemma filterUnusedOnly_kept l w items :
  maps w !! l = Some items ->
  filterUnusedOnly l w = Ok (l, store_at l (kept items) w).
Proof. apply filterUnusedOnly_spec. Qed.

(** Filtering a map a second time changes nothing more. *)
Theorem filterUnusedOnly_twice l w items :
  maps w !! l = Some items ->
  (filterUnusedOnly l ≫= filterUnusedOnly) w = filterUnusedOnly l w.
Proof.
  intros Hl. rewrite (bind_ok _ _ _ _ _ (filterUnusedOnly_kept l w items Hl)).
  rewrite (filterUnusedOnly_kept l _ (kept items)), (filterUnusedOnly_kept l w items Hl).
  - by rewrite kept_kept, store_at_twice.
  - unfold store_at. simpl. apply lookup_insert_eq.
Qed.

Lemma filterUnusedOnly_twice_witness :
  (filterUnusedOnly 2%positive ≫= filterUnusedOnly) sample_world
  = filterUnusedOnly 2%positive sample_world.
Proof.
  apply (filterUnusedOnly_twice 2%positive sample_world sample_locals eq_refl).
Defined.

(** ** What [Display] prints and what it leaves of the report *)

Lemma size_empty_map : size (∅ : GoMap) = 0%nat.
Proof. apply map_size_empty. Qed.

Lemma print_lines (fmt : string -> Z -> string) entries w :
  for_each entries (fun '(name, count) => Printf (fmt name count)) w
  = Ok (tt, mkWorld (maps w)
              (stdout w ++ ((fun kv => fmt kv.1 kv.2) <$> entries))).
Proof.
  revert w. induction entries as [|[name count] entries IH]; intros w.
  - simpl. rewrite app_nil_r. by destruct w.
  - cbn [for_each]. unfold mbind, Go_bind. unfold Printf at 1.
    rewrite IH. simpl. by rewrite <- app_assoc.
Qed.

Lemma print_entries_ok fmt l w items :
  maps w !! l = Some items ->
  print_entries fmt l w
  = Ok (tt, mkWorld (maps w) (stdout w ++ entry_lines fmt items)).
Proof.
  intros Hl. unfold print_entries.
  rewrite (bind_ok _ _ _ _ _ (MapEntries_ok l w items Hl)).
  apply print_lines.
Qed.

Lemma NewMap_fresh w :
  exists l w', NewMap w = Ok (l, w')
    /\ maps w !! l = None /\ maps w' = <[l := ∅]> (maps w) /\ stdout w' = stdout w.
Proof. destruct (NewMap_spec w) as [Hrun Hfresh]. by eexists _, _. Qed.

Lemma Display_maps_fresh w :
  exists l1 l2 l3 w3,
    (forall A (k : loc -> loc -> loc -> Go A),
       (variables ← NewMap; locals ← NewMap; modules ← NewMap;
        k variables locals modules) w = k l1 l2 l3 w3)
    /\ maps w !! l1 = None /\ maps w !! l2 = None /\ maps w !! l3 = None
    /\ maps w3 !! l1 = Some ∅ /\ maps w3 !! l2 = Some ∅ /\ maps w3 !! l3 = Some ∅
    /\ stdout w3 = stdout w
    /\ (forall l0, is_Some (maps w !! l0) -> maps w3 !! l0 = maps w !! l0).
Proof.
  destruct (NewMap_fresh w) as (l1 & w1 & H1 & F1 & M1 & O1).
  destruct (NewMap_fresh w1) as (l2 & w2 & H2 & F2 & M2 & O2).
  destruct (NewMap_fresh w2) as (l3 & w3 & H3 & F3 & M3 & O3).
  rewrite M2, M1 in F3. rewrite M1 in F2.
  apply lookup_insert_None in F3 as [F3 N32].
  apply lookup_insert_None in F3 as [F3 N31].
  apply lookup_insert_None in F2 as [F2 N21].
  exists l1, l2, l3, w3. repeat split; try done.
  - intros A k.
    by rewrite (bind_ok _ _ _ _ _ H1), (bind_ok _ _ _ _ _ H2), (bind_ok _ _ _ _ _ H3).
  - rewrite M3, M2, M1, !lookup_insert_ne by done. apply lookup_insert_eq.
  - rewrite M3, M2, lookup_insert_ne by done. apply lookup_insert_eq.
  - rewrite M3. apply lookup_insert_eq.
  - congruence.
  - intros l0 [mp Hl0]. rewrite M3, M2, M1, !lookup_insert_ne; [done|congruence..].
Qed.

(** The heap after the filtering half of [Display]. *)
Lemma filter_stage (fv fl : bool) m w3 variables locals :
  maps w3 !! Variables m = Some variables ->
  maps w3 !! Locals m = Some locals ->
  Variables m <> Locals m ->
  exists w4,
    w4 = (if fv then store_at (Variables m) (kept variables) else id)
           ((if fl then store_at (Locals m) (kept locals) else id) w3)
    /\ maps w4 !! Variables m = Some (if fv then kept variables else variables)
    /\ maps w4 !! Locals m = Some (if fl then kept locals else locals)
    /\ (forall l, l <> Variables m -> l <> Locals m -> maps w4 !! l = maps w3 !! l)
    /\ stdout w4 = stdout w3.
Proof.
  intros Hv Hl Hne. eexists. split; [reflexivity|].
  destruct fv, fl; unfold store_at; simpl; repeat split; try done.
  all: try (intros l ? ?; by rewrite ?lookup_insert_ne by done).
  all: try apply lookup_insert_eq.
  all: rewrite lookup_insert_ne by done; try done; apply lookup_insert_eq.
Qed.

Ltac run_display :=
  unfold mbind, Go_bind, mret, Go_ret;
  unfold display_lines, entry_lines; simpl;
  rewrite ?map_to_list_empty, ?size_empty_map; simpl;
  repeat first
    [ erewrite MapLen_ok by (cbn [maps]; eassumption)
    | erewrite print_entries_ok by (cbn [maps]; eassumption)
    | progress cbv beta iota
    | progress cbn [maps stdout]
    | progress unfold when, Printf, mret, Go_ret
    | rewrite size_empty_map
    | match goal with
      | |- context [if ?b then _ else _] => destruct b
      end ].

Ltac display_done :=
  match goal with
  | K4 : forall l, l <> _ -> l <> _ -> maps ?w4 !! l = maps ?w3 !! l,
    K3 : forall l, is_Some (maps ?w !! l) -> maps ?w3 !! l = maps ?w !! l,
    O4 : stdout ?w4 = stdout ?w3, O3 : stdout ?w3 = stdout ?w,
    E1 : maps ?w3 !! ?l1 = Some ∅, E2 : maps ?w3 !! ?l2 = Some ∅,
    E3 : maps ?w3 !! ?l3 = Some ∅ |- _ =>
      assert (maps w4 !! l1 = Some ∅) by (by rewrite K4);
      assert (maps w4 !! l2 = Some ∅) by (by rewrite K4);
      assert (maps w4 !! l3 = Some ∅) by (by rewrite K4);
      run_display;
      (eexists; split; [reflexivity|]; cbn [maps stdout];
       split; [done|]; split; [done|]; split;
       [ intros l ? ? ?; rewrite K4 by done; by apply K3
       | rewrite O4, O3; unfold entry_lines, module_line, variables_found,
           modules_found, locals_found;
         rewrite ?map_to_list_empty; simpl;
         rewrite ?app_nil_r, <- ?app_assoc; reflexivity ])
  end.

Lemma Display_eval m dType unusedOnly w variables locals :
  maps w !! Variables m = Some variables ->
  maps w !! Locals m = Some locals ->
  Variables m <> Locals m ->
  dType = DisplayType.All \/ dType = DisplayType.Variables
  \/ dType = DisplayType.Locals ->
  let variables' :=
    if unusedOnly && negb (bool_decide (dType = DisplayType.Locals))
    then kept variables else variables in
  let locals' :=
    if unusedOnly && negb (bool_decide (dType = DisplayType.Variables))
    then kept locals else locals in
  exists w',
    Display m dType unusedOnly w = Ok (None, w')
    /\ maps w' !! Variables m = Some variables'
    /\ maps w' !! Locals m = Some locals'
    /\ (forall l, is_Some (maps w !! l) -> l <> Variables m -> l <> Locals m ->
          maps w' !! l = maps w !! l)
    /\ stdout w'
       = stdout w
         ++ display_lines m dType unusedOnly
              (if bool_decide (dType = DisplayType.Locals) then ∅ else variables')
              (if bool_decide (dType = DisplayType.Variables) then ∅ else locals').
Proof.
  intros Hv Hl Hne HdType. unfold Display.
  destruct (Display_maps_fresh w)
    as (l1 & l2 & l3 & w3 & Hrun & F1 & F2 & F3 & E1 & E2 & E3 & O3 & K3).
  rewrite Hrun. clear Hrun.
  assert (Hv3 : maps w3 !! Variables m = Some variables) by (by rewrite K3).
  assert (Hl3 : maps w3 !! Locals m = Some locals) by (by rewrite K3).
  assert (Hfresh : forall l, maps w !! l = None -> l <> Variables m /\ l <> Locals m)
    by (intros l Hnone; split; congruence).
  destruct (Hfresh l1 F1), (Hfresh l2 F2), (Hfresh l3 F3).
  destruct HdType as [-> | [-> | ->]]; destruct unusedOnly; simpl.
  - destruct (filter_stage true true m w3 variables locals Hv3 Hl3 Hne)
      as (w4 & Hw4 & V4 & L4 & K4 & O4).
    unfold mbind, Go_bind, mret, Go_ret.
    rewrite (filterUnusedOnly_kept _ _ _ Hl3). cbv beta iota.
    erewrite filterUnusedOnly_kept
      by (unfold store_at; simpl; rewrite lookup_insert_ne by done; eassumption).
    cbv beta iota. simpl in Hw4. rewrite <- Hw4. clear Hw4.
    display_done.
  - destruct (filter_stage false false m w3 variables locals Hv3 Hl3 Hne)
      as (w4 & Hw4 & V4 & L4 & K4 & O4).
    simpl in Hw4. rewrite <- Hw4. clear Hw4. display_done.
  - destruct (filter_stage true false m w3 variables locals Hv3 Hl3 Hne)
      as (w4 & Hw4 & V4 & L4 & K4 & O4).
    unfold mbind, Go_bind, mret, Go_ret.
    rewrite (filterUnusedOnly_kept _ _ _ Hv3). cbv beta iota.
    simpl in Hw4. rewrite <- Hw4. clear Hw4. display_done.
  - destruct (filter_stage false false m w3 variables locals Hv3 Hl3 Hne)
      as (w4 & Hw4 & V4 & L4 & K4 & O4).
    simpl in Hw4. rewrite <- Hw4. clear Hw4. display_done.
  - destruct (filter_stage false true m w3 variables locals Hv3 Hl3 Hne)
      as (w4 & Hw4 & V4 & L4 & K4 & O4).
    unfold mbind, Go_bind, mret, Go_ret.
    rewrite (filterUnusedOnly_kept _ _ _ Hl3). cbv beta iota.
    simpl in Hw4. rewrite <- Hw4. clear Hw4. display_done.
  - destruct (filter_stage false false m w3 variables locals Hv3 Hl3 Hne)
      as (w4 & Hw4 & V4 & L4 & K4 & O4).
    simpl in Hw4. rewrite <- Hw4. clear Hw4. display_done.
Qed.

Lemma kept_all_used (items : GoMap) :
  map_Forall (fun _ count => (0 < count)%Z) items -> kept items = ∅.
Proof.
  intros Hused. apply map_empty. intros k. unfold kept.
  apply map_lookup_filter_None. right. intros v Hk Hv. simpl in Hv.
  by specialize (Hused k v Hk).
Qed.

(** Without the filter a display of a valid type changes nothing: the
    maps of the report and every other map there was are as before, and no
    error is returned. *)
Theorem Display_unfiltered_keeps_maps m dType w variables locals :
  maps w !! Variables m = Some variables ->
  maps w !! Locals m = Some locals ->
  Variables m <> Locals m ->
  dType = DisplayType.All \/ dType = DisplayType.Variables
  \/ dType = DisplayType.Locals ->
  exists w',
    Display m dType false w = Ok (None, w')
    /\ forall l, is_Some (maps w !! l) -> maps w' !! l = maps w !! l.
Proof.
  intros Hv Hl Hne HdType.
  destruct (Display_eval m dType false w variables locals Hv Hl Hne HdType)
    as (w' & Hrun & Hv' & Hl' & Hkeep & _).
  exists w'. split; [done|]. intros l Hsome. simpl in Hv', Hl'.
  destruct (decide (l = Variables m)) as [->|]; [congruence|].
  destruct (decide (l = Locals m)) as [->|]; [congruence|].
  by apply Hkeep.
Qed.

Lemma Display_unfiltered_keeps_maps_witness :
  exists w',
    Display sample_report DisplayType.Variables false sample_world = Ok (None, w')
    /\ forall l, is_Some (maps sample_world !! l) ->
         maps w' !! l = maps sample_world !! l.
Proof.
  apply (Display_unfiltered_keeps_maps sample_report DisplayType.Variables
           sample_world sample_variables sample_locals eq_refl eq_refl);
    [discriminate|by right; left].
Defined.



(** With the filter on, a display prints nothing at all when every symbol
    it would show is referred to at least once, and it leaves the mappings
    it filtered empty. *)
Theorem Display_filtered_silent m dType w variables locals :
  maps w !! Variables m = Some variables ->
  maps w !! Locals m = Some locals ->
  Variables m <> Locals m ->
  dType = DisplayType.All \/ dType = DisplayType.Variables
  \/ dType = DisplayType.Locals ->
  (dType <> DisplayType.Locals ->
   map_Forall (fun _ count => (0 < count)%Z) variables) ->
  (dType <> DisplayType.Variables ->
   map_Forall (fun _ count => (0 < count)%Z) locals) ->
  exists w',
    Display m dType true w = Ok (None, w')
    /\ stdout w' = stdout w
    /\ (dType <> DisplayType.Locals -> maps w' !! Variables m = Some ∅)
    /\ (dType <> DisplayType.Variables -> maps w' !! Locals m = Some ∅).
Proof.
  intros Hv Hl Hne HdType Hvused Hlused.
  destruct (Display_eval m dType true w variables locals Hv Hl Hne HdType)
    as (w' & Hrun & Hv' & Hl' & _ & Hout).
  exists w'. split; [done|].
  destruct HdType as [-> | [-> | ->]]; simpl in *.
  - rewrite (kept_all_used variables) in * by (by apply Hvused).
    rewrite (kept_all_used locals) in * by (by apply Hlused).
    split; [|done]. rewrite Hout. unfold display_lines, entry_lines.
    rewrite map_to_list_empty, size_empty_map. simpl. by rewrite app_nil_r.
  - rewrite (kept_all_used variables) in * by (by apply Hvused).
    split; [|done]. rewrite Hout. unfold display_lines, entry_lines.
    rewrite map_to_list_empty, size_empty_map. simpl. by rewrite app_nil_r.
  - rewrite (kept_all_used locals) in * by (by apply Hlused).
    split; [|done]. rewrite Hout. unfold display_lines, entry_lines.
    rewrite map_to_list_empty, size_empty_map. simpl. by rewrite app_nil_r.
Qed.

Lemma Display_filtered_silent_witness :
  exists w',
    Display sample_report DisplayType.All true busy_world = Ok (None, w')
    /\ stdout w' = [].
Proof.
  destruct (Display_filtered_silent sample_report DisplayType.All busy_world
              busy_variables busy_locals eq_refl eq_refl)
    as (w' & Hrun & Hout & _).
  - discriminate.
  - by left.
  - intros _. unfold busy_variables.
    apply map_Forall_insert_2; [lia|apply map_Forall_empty].
  - intros _. unfold busy_locals.
    apply map_Forall_insert_2; [lia|apply map_Forall_empty].
  - exists w'. split; [exact Hrun|exact Hout].
Defined.





(** ** The extractor: blocks without labels, keys, other maps *)

Lemma for_each_panic {A} (body : A -> Go unit) before x after w w1 why :
  for_each before body w = Ok (tt, w1) ->
  body x w1 = Panic why ->
  for_each (before ++ x :: after) body w = Panic why.
Proof.
  revert w. induction before as [|y before IH]; intros w Hbefore Hx.
  - simpl in Hbefore. injection Hbefore as <-. simpl.
    unfold mbind, Go_bind. by rewrite Hx.
  - simpl in *. unfold mbind, Go_bind in *.
    destruct (body y w) as [[[] w0]|]; [|done]. by apply IH.
Qed.

Lemma processBlock_lacks_labels m bodyStr b w :
  lacks_labels b = true -> processBlock m bodyStr b w = Panic IndexOutOfRange.
Proof.
  destruct b as [ty labels attrs]. unfold lacks_labels, processBlock.
  cbn [blk_Type blk_Labels blk_Attributes].
  intros [[Hty Hlen]%andb_prop|[Hty Hlen]%andb_prop]%orb_prop.
  - apply bool_decide_eq_true in Hty as ->.
    destruct labels as [|data_type [|name labels]]; done.
  - destruct labels; [|done]. apply orb_prop in Hty as [Hty|Hty];
      apply bool_decide_eq_true in Hty as ->; done.
Qed.

Lemma writes_only_ret {A} locs (a : A) : writes_only locs (mret a).
Proof. intros w a' w' [= _ <-] l _. done. Qed.

Lemma writes_only_lift {A} locs (r : result A) : writes_only locs (lift r).
Proof. intros w a w' Hrun l _. destruct r; [|done]. by injection Hrun as _ <-. Qed.

Lemma writes_only_bind {A B} locs (c : Go A) (f : A -> Go B) :
  writes_only locs c -> (forall a, writes_only locs (f a)) ->
  writes_only locs (c ≫= f).
Proof.
  intros Hc Hf w b w' Hrun l Hl. unfold mbind, Go_bind in Hrun.
  destruct (c w) as [[a w1]|] eqn:Hcw; [|done].
  rewrite (Hf a w1 b w' Hrun l Hl). by apply (Hc w a w1).
Qed.

Lemma writes_only_MapStore locs l k v : l ∈ locs -> writes_only locs (MapStore l k v).
Proof.
  intros Hl w a w' Hrun l0 Hl0. unfold MapStore, on_map in Hrun.
  destruct (maps w !! l); [|done]. injection Hrun as _ <-. simpl.
  apply lookup_insert_ne. by intros ->.
Qed.

Lemma writes_only_for_each {A} locs (xs : list A) body :
  (forall x, writes_only locs (body x)) -> writes_only locs (for_each xs body).
Proof.
  intros Hbody. induction xs as [|x xs IH]; [apply writes_only_ret|].
  cbn [for_each]. by apply writes_only_bind.
Qed.

Lemma writes_only_processBlock m bodyStr b :
  writes_only [Variables m; Locals m; Modules m; DataBlocks m]
    (processBlock m bodyStr b).
Proof.
  unfold processBlock.
  repeat first
    [ apply writes_only_bind; [|intros ?]
    | apply writes_only_ret
    | apply writes_only_lift
    | apply writes_only_MapStore; set_solver
    | apply writes_only_for_each; intros [? ?]
    | match goal with |- writes_only _ (if ?b then _ else _) => destruct b end ].
Qed.

Lemma writes_only_processUsage m :
  writes_only [Variables m; Locals m; Modules m; DataBlocks m] (processUsage m).
Proof.
  unfold processUsage. destruct (file m); [|apply writes_only_lift].
  apply writes_only_bind; [|intros ?; apply writes_only_ret].
  apply writes_only_for_each. intros b. apply writes_only_processBlock.
Qed.

Lemma has_key_iff (keys : list string) (v : Z) k :
  is_Some (if decide (k ∈ keys) then Some v else None) <-> k ∈ keys.
Proof. destruct (decide (k ∈ keys)); split; try done; by intros [? ?]. Qed.

Lemma variable_keys_iff blocks k :
  k ∈ blocks ≫= variable_keys
  <-> exists b, b ∈ blocks /\ blk_Type b = "variable" /\ blk_Labels b !! 0%nat = Some k.
Proof.
  rewrite list_elem_of_bind. unfold variable_keys. split.
  - intros (b & Hk & Hb). exists b. split; [done|].
    destruct (decide (blk_Type b = "variable")); [|by apply elem_of_nil in Hk].
    destruct (blk_Labels b) as [|name labels]; [by apply elem_of_nil in Hk|].
    apply list_elem_of_singleton in Hk as ->. done.
  - intros (b & Hb & Hty & Hk). exists b. split; [|done].
    rewrite decide_True by done.
    destruct (blk_Labels b) as [|name labels]; [done|].
    injection Hk as ->. apply list_elem_of_here.
Qed.

Lemma module_keys_iff blocks k :
  k ∈ blocks ≫= module_keys
  <-> exists b, b ∈ blocks /\ blk_Type b = "module" /\ blk_Labels b !! 0%nat = Some k.
Proof.
  rewrite list_elem_of_bind. unfold module_keys. split.
  - intros (b & Hk & Hb). exists b. split; [done|].
    destruct (decide (blk_Type b = "module")); [|by apply elem_of_nil in Hk].
    destruct (blk_Labels b) as [|name labels]; [by apply elem_of_nil in Hk|].
    apply list_elem_of_singleton in Hk as ->. done.
  - intros (b & Hb & Hty & Hk). exists b. split; [|done].
    rewrite decide_True by done.
    destruct (blk_Labels b) as [|name labels]; [done|].
    injection Hk as ->. apply list_elem_of_here.
Qed.

Lemma local_keys_iff blocks k :
  k ∈ blocks ≫= local_keys
  <-> exists b, b ∈ blocks /\ blk_Type b = "locals" /\ is_Some (blk_Attributes b !! k).
Proof.
  rewrite list_elem_of_bind. unfold local_keys. split.
  - intros (b & Hk & Hb). exists b. split; [done|].
    destruct (decide (blk_Type b = "locals")); [|by apply elem_of_nil in Hk].
    split; [done|]. apply list_elem_of_fmap in Hk as ([k' a] & -> & Hk).
    apply elem_of_map_to_list in Hk. by exists a.
  - intros (b & Hb & Hty & [a Hk]). exists b. split; [|done].
    rewrite decide_True by done. apply list_elem_of_fmap. exists (k, a).
    split; [done|]. by apply elem_of_map_to_list.
Qed.

Lemma data_keys_iff blocks k :
  k ∈ blocks ≫= data_keys
  <-> exists b data_type name,
        b ∈ blocks /\ blk_Type b = "data"
        /\ blk_Labels b !! 0%nat = Some data_type
        /\ blk_Labels b !! 1%nat = Some name
        /\ k = "data." +:+ data_type +:+ "." +:+ name.
Proof.
  rewrite list_elem_of_bind. unfold data_keys. split.
  - intros (b & Hk & Hb). exists b.
    destruct (decide (blk_Type b = "data")); [|by apply elem_of_nil in Hk].
    destruct (blk_Labels b) as [|data_type [|name labels]];
      [by apply elem_of_nil in Hk..|].
    apply list_elem_of_singleton in Hk as ->. by exists data_type, name.
  - intros (b & data_type & name & Hb & Hty & H0 & H1 & ->). exists b.
    split; [|done]. rewrite decide_True by done.
    destruct (blk_Labels b) as [|data_type' [|name' labels]]; try done.
    injection H0 as ->. injection H1 as ->. apply list_elem_of_here.
Qed.

Section Constructed.
Variable ReadDir : string -> list string * option error.
Variable ReadFile : string -> string * option error.
Variable Join : string -> string -> string.
Variable ParseConfig : string -> File + string.

(** The report and the heap at the moment [processUsage] is called. *)
Lemma NewModuleUsage_start path w src f :
  LoadTfModule ReadDir ReadFile Join path = (src, None) ->
  ParseConfig src = inl f ->
  exists m w4,
    NewModuleUsage ReadDir ReadFile Join ParseConfig path w
    = (err ← processUsage m; mret (Some m, err)) w4
    /\ Path m = path /\ file m = Some f /\ distinct m
    /\ holds m w4 empty_counts
    /\ stdout w4 = stdout w
    /\ (forall l, l ∈ [Variables m; Locals m; Modules m; DataBlocks m] ->
          maps w !! l = None)
    /\ (forall l, is_Some (maps w !! l) -> maps w4 !! l = maps w !! l).
Proof.
  intros Hload Hparse. unfold NewModuleUsage.
  destruct (NewMap_fresh w) as (l1 & w1 & H1 & F1 & M1 & O1).
  destruct (NewMap_fresh w1) as (l2 & w2 & H2 & F2 & M2 & O2).
  destruct (NewMap_fresh w2) as (l3 & w3 & H3 & F3 & M3 & O3).
  destruct (NewMap_fresh w3) as (l4 & w4 & H4 & F4 & M4 & O4).
  rewrite M3, M2, M1 in F4. rewrite M2, M1 in F3. rewrite M1 in F2.
  do 3 apply lookup_insert_None in F4 as [F4 ?].
  do 2 apply lookup_insert_None in F3 as [F3 ?].
  apply lookup_insert_None in F2 as [F2 ?].
  rewrite (bind_ok _ _ _ _ _ H1), (bind_ok _ _ _ _ _ H2),
    (bind_ok _ _ _ _ _ H3), (bind_ok _ _ _ _ _ H4).
  rewrite Hload, Hparse. cbn [Path Variables Locals Modules DataBlocks].
  exists (mkModuleUsage path l1 l2 l3 l4 (Some f)), w4.
  split; [done|]. split; [done|]. split; [done|]. split; [|split; [|split; [|split]]].
  - unfold distinct. simpl. rewrite !NoDup_cons, !not_elem_of_cons.
    repeat split; first [done | apply not_elem_of_nil | apply NoDup_nil_2].
  - unfold holds. simpl. rewrite M4, M3, M2, M1.
    repeat split; by simplify_map_eq.
  - congruence.
  - simpl. intros l Hl. rewrite !elem_of_cons in Hl.
    destruct Hl as [->|[->|[->|[->|Hl]]]]; try done. by apply elem_of_nil in Hl.
  - intros l [mp Hl]. rewrite M4, M3, M2, M1.
    rewrite !lookup_insert_ne; [done|congruence..].
Qed.

(** A [data] block with fewer than two labels, or a [module] or [variable]
    block with none, makes the construction panic with an index out of
    range: the labels are read by position without a look at their
    number. *)
Theorem NewModuleUsage_panics_without_labels path w src f before b after :
  LoadTfModule ReadDir ReadFile Join path = (src, None) ->
  ParseConfig src = inl f ->
  file_Blocks f = before ++ b :: after ->
  forallb block_ok before = true ->
  lacks_labels b = true ->
  NewModuleUsage ReadDir ReadFile Join ParseConfig path w = Panic IndexOutOfRange.
Proof.
  intros Hload Hparse Hblocks Hbefore Hb.
  destruct (NewModuleUsage_start path w src f Hload Hparse)
    as (m & w4 & -> & _ & Hfile & Hd & Hh & _).
  unfold mbind at 1, Go_bind at 1. unfold processUsage. rewrite Hfile, Hblocks.
  destruct (for_each_blocks m (file_Bytes f) before Hd Hbefore w4 _ Hh)
    as (w5 & Hrun & _).
  unfold mbind at 1, Go_bind at 1.
  by rewrite (for_each_panic _ _ _ _ _ _ _ Hrun
                (processBlock_lacks_labels m (file_Bytes f) b w5 Hb)).
Qed.

(** The construction changes no map there was before it: the four maps
    of the new report are new, so two reports never share a map and a
    filter applied to one is not seen through the other. *)
Theorem NewModuleUsage_keeps_other_maps path w src f :
  LoadTfModule ReadDir ReadFile Join path = (src, None) ->
  ParseConfig src = inl f ->
  forallb block_ok (file_Blocks f) = true ->
  exists m w',
    NewModuleUsage ReadDir ReadFile Join ParseConfig path w = Ok ((Some m, None), w')
    /\ (forall l, l ∈ [Variables m; Locals m; Modules m; DataBlocks m] ->
          maps w !! l = None)
    /\ (forall l, is_Some (maps w !! l) -> maps w' !! l = maps w !! l).
Proof.
  intros Hload Hparse Hok.
  destruct (NewModuleUsage_start path w src f Hload Hparse)
    as (m & w4 & Heq & _ & Hfile & Hd & Hh & _ & Hfresh & Hkeep).
  destruct (processUsage_spec m f w4 _ Hfile Hd Hh Hok) as (w' & Hrun & _ & _).
  exists m, w'. split; [by rewrite Heq, (bind_ok _ _ _ _ _ Hrun)|].
  split; [done|]. intros l Hl.
  rewrite (writes_only_processUsage m w4 None w' Hrun); [by apply Hkeep|].
  intros Hin. apply Hfresh in Hin. rewrite Hin in Hl. by destruct Hl.
Qed.

(** The keys of a constructed report are the declarations of the module,
    no more and no fewer: a variable or a module has a key when a block of
    that type has it as its first label, a local when a [locals] block has
    an attribute of that name, a data lookup when a [data] block has its
    two labels; blocks of other types leave no key. *)
Theorem NewModuleUsage_keys path w src f :
  LoadTfModule ReadDir ReadFile Join path = (src, None) ->
  ParseConfig src = inl f ->
  forallb block_ok (file_Blocks f) = true ->
  exists m w' variables locals modules dataBlocks,
    NewModuleUsage ReadDir ReadFile Join ParseConfig path w = Ok ((Some m, None), w')
    /\ maps w' !! Variables m = Some variables
    /\ maps w' !! Locals m = Some locals
    /\ maps w' !! Modules m = Some modules
    /\ maps w' !! DataBlocks m = Some dataBlocks
    /\ (forall k, is_Some (variables !! k) <->
          exists b, b ∈ file_Blocks f /\ blk_Type b = "variable"
                    /\ blk_Labels b !! 0%nat = Some k)
    /\ (forall k, is_Some (locals !! k) <->
          exists b, b ∈ file_Blocks f /\ blk_Type b = "locals"
                    /\ is_Some (blk_Attributes b !! k))
    /\ (forall k, is_Some (modules !! k) <->
          exists b, b ∈ file_Blocks f /\ blk_Type b = "module"
                    /\ blk_Labels b !! 0%nat = Some k)
    /\ (forall k, is_Some (dataBlocks !! k) <->
          exists b data_type name,
            b ∈ file_Blocks f /\ blk_Type b = "data"
            /\ blk_Labels b !! 0%nat = Some data_type
            /\ blk_Labels b !! 1%nat = Some name
            /\ k = "data." +:+ data_type +:+ "." +:+ name).
Proof.
  intros Hload Hparse Hok.
  destruct (NewModuleUsage_start path w src f Hload Hparse)
    as (m & w4 & Heq & _ & Hfile & Hd & Hh & _).
  destruct (processUsage_spec m f w4 _ Hfile Hd Hh Hok)
    as (w' & Hrun & (Hv & Hl & Hm & Hdb) & _).
  eexists m, w', _, _, _, _.
  split; [by rewrite Heq, (bind_ok _ _ _ _ _ Hrun)|].
  do 4 (split; [eassumption|]).
  rewrite blocks_effect_variables, blocks_effect_locals, blocks_effect_modules,
    blocks_effect_dataBlocks. simpl.
  split; [|split; [|split]]; intros k; rewrite lookup_set_all, lookup_empty.
  - rewrite (has_key_iff _ _ k). apply variable_keys_iff.
  - rewrite (has_key_iff _ _ k). apply local_keys_iff.
  - rewrite (has_key_iff _ _ k). apply module_keys_iff.
  - rewrite (has_key_iff _ _ k). apply data_keys_iff.
Qed.
End Constructed.

Lemma NewModuleUsage_panics_without_labels_witness :
  NewModuleUsage one_file (reads unlabelled_text) slash (parses_to unlabelled_blocks)
    "mod" (mkWorld ∅ [])
  = Panic IndexOutOfRange.
Proof.
  apply (NewModuleUsage_panics_without_labels one_file (reads unlabelled_text) slash
           (parses_to unlabelled_blocks) "mod" (mkWorld ∅ []) (nl +:+ unlabelled_text)
           (mkFile (nl +:+ unlabelled_text) unlabelled_blocks)
           [mkBlock "variable" ["region"] ∅] (mkBlock "variable" [] ∅) []
           eq_refl eq_refl eq_refl eq_refl eq_refl).
Defined.

Lemma NewModuleUsage_keeps_other_maps_witness :
  exists m w',
    NewModuleUsage one_file (reads region_text) slash (parses_to region_blocks)
      "mod" sample_world
    = Ok ((Some m, None), w')
    /\ maps w' !! 2%positive = Some sample_locals.
Proof.
  destruct (NewModuleUsage_keeps_other_maps one_file (reads region_text) slash
              (parses_to region_blocks) "mod" sample_world (nl +:+ region_text)
              (mkFile (nl +:+ region_text) region_blocks) eq_refl eq_refl eq_refl)
    as (m & w' & Hrun & _ & Hkeep).
  exists m, w'. split; [exact Hrun|].
  rewrite Hkeep; [reflexivity|]. by exists sample_locals.
Defined.

Lemma NewModuleUsage_keys_witness :
  exists m w' variables,
    construct region_text region_blocks = Ok ((Some m, None), w')
    /\ maps w' !! Variables m = Some variables
    /\ is_Some (variables !! "region").
Proof.
  destruct (NewModuleUsage_keys one_file (reads region_text) slash
              (parses_to region_blocks) "mod" (mkWorld ∅ []) (nl +:+ region_text)
              (mkFile (nl +:+ region_text) region_blocks) eq_refl eq_refl eq_refl)
    as (m & w' & variables & locals & modules & dataBlocks & Hrun & Hv & _ & _ & _
        & Hkeys & _).
  exists m, w', variables. split; [exact Hrun|]. split; [exact Hv|].
  apply Hkeys. exists (mkBlock "variable" ["region"] ∅).
  split; [apply list_elem_of_here|]. split; reflexivity.
Defined.

(** ** Discovery of modules *)

Lemma Entry_rect' (P : Entry -> Prop) :
  P RegularFile ->
  (forall entries err, Forall (fun ne => P ne.2) entries -> P (Directory entries err)) ->
  forall d, P d.
Proof.
  intros Hfile Hdir. fix IH 1. intros [|entries err]; [exact Hfile|].
  apply Hdir. induction entries as [|[name d1] entries IHentries].
  - constructor.
  - constructor; [apply IH|exact IHentries].
Qed.

Section Walks.
Variable Join : string -> string -> string.
Variable Dir : string -> string.

Lemma visit_no_error path st : visit Dir path None st = (None, seen Dir st path).
Proof.
  unfold seen, visit. destruct (decide (Ext path = ".tf")); [|done].
  simpl. by destruct (directories st !! Dir path).
Qed.

Lemma walkDir_readable d :
  forall path st, readable d = true ->
    walkDir Join (visit Dir) path d st = (None, foldl (seen Dir) st (paths Join path d)).
Proof.
  induction d as [|entries err IH] using Entry_rect'; intros path st Hd.
  - cbn [walkDir paths foldl]. by rewrite visit_no_error.
  - simpl in Hd. destruct err as [e|]; [done|]. simpl in Hd.
    cbn [walkDir paths foldl]. rewrite visit_no_error.
    generalize (seen Dir st path). clear st.
    induction IH as [|[name d1] entries Hd1 _ IHentries]; intros st; [done|].
    apply andb_prop in Hd as [Hr Hrest].
    rewrite (Hd1 _ _ Hr), foldl_app. by apply IHentries.
Qed.

Lemma walkDir_unreadable d :
  forall path st, readable d = false ->
    exists e st', walkDir Join (visit Dir) path d st = (Some e, st').
Proof.
  induction d as [|entries err IH] using Entry_rect'; intros path st Hd; [done|].
  cbn [walkDir]. rewrite visit_no_error.
  destruct err as [e|]; [by eexists _, _|].
  simpl in Hd. cbv beta iota zeta. generalize (seen Dir st path). clear st.
  induction IH as [|[name d1] entries Hd1 _ IHentries]; intros st; [done|].
  destruct (readable d1) eqn:Hr.
  - rewrite walkDir_readable by done. by apply IHentries.
  - destruct (Hd1 (Join path name) st Hr) as (e & st' & Hwalk). simpl in Hwalk.
    rewrite Hwalk. by eexists _, _.
Qed.

Lemma directories_seen st ps k :
  directories (foldl (seen Dir) st ps) !! k
  = match directories st !! k with
    | Some v => Some v
    | None => if decide (k ∈ Dir <$> tf_names ps) then Some true else None
    end.
Proof.
  revert st. induction ps as [|p ps IH]; intros st.
  - cbn [foldl]. destruct (directories st !! k); [done|].
    destruct (decide _) as [Hin|]; [|done]. by apply not_elem_of_nil in Hin.
  - cbn [foldl]. rewrite IH. unfold tf_names. rewrite filter_cons.
    unfold seen at 1, visit.
    destruct (decide (Ext p = ".tf")) as [Htf|Hother]; [|done].
    rewrite fmap_cons. simpl.
    destruct (directories st !! Dir p) as [v|] eqn:Hp; simpl.
    + destruct (directories st !! k) as [v'|] eqn:Hk; [done|].
      assert (k <> Dir p) by congruence.
      destruct (decide (k ∈ Dir <$> filter _ ps)) as [Hin|Hnin].
      * by rewrite decide_True by (by right).
      * rewrite decide_False; [done|]. rewrite elem_of_cons. by intros [?|?].
    + destruct (decide (k = Dir p)) as [->|Hne].
      * rewrite lookup_insert_eq, Hp. by rewrite decide_True by (by left).
      * rewrite lookup_insert_ne by done.
        destruct (directories st !! k) as [v'|]; [done|].
        destruct (decide (k ∈ Dir <$> filter _ ps)) as [Hin|Hnin].
        -- by rewrite decide_True by (by right).
        -- rewrite decide_False; [done|]. rewrite elem_of_cons. by intros [?|?].
Qed.

Variable Lstat : string -> Entry + error.

(** When every directory below [path] can be read, [ListTfModules]
    returns no error and a map whose keys are the directories of the
    paths of the walk that end on [.tf], each of them once and with the
    value [true], however many such paths a directory holds. *)
Theorem ListTfModules_finds path d :
  Lstat path = inl d -> readable d = true ->
  exists found log,
    ListTfModules Lstat Join Dir path = ((Some found, None), log)
    /\ forall k, found !! k
         = if decide (k ∈ Dir <$> tf_names (paths Join path d))
           then Some true else None.
Proof.
  intros Hroot Hd. unfold ListTfModules, WalkDir. rewrite Hroot.
  rewrite walkDir_readable by done. eexists _, _. split; [reflexivity|].
  intros k. rewrite directories_seen. cbn [directories]. by rewrite lookup_empty.
Qed.

(** One directory that cannot be read, or a root that cannot be looked
    at, makes the whole listing fail: an error is returned in place of the
    map, whatever was found before. *)
Theorem ListTfModules_fails path :
  match Lstat path with
  | inl d => readable d = false
  | inr _ => True
  end ->
  exists e log, ListTfModules Lstat Join Dir path = ((None, Some e), log).
Proof.
  unfold ListTfModules, WalkDir. destruct (Lstat path) as [d|e]; intros Hd.
  - destruct (walkDir_unreadable d path (mkFound ∅ []) Hd) as (e & st' & ->).
    by eexists _, _.
  - by eexists _, _.
Qed.
End Walks.

Lemma ListTfModules_finds_witness :
  exists found log,
    ListTfModules (fun _ => inl sample_tree) slash parent "mods"
    = ((Some found, None), log)
    /\ found !! "mods/a" = Some true /\ found !! "mods/b" = Some true
    /\ found !! "mods" = None.
Proof.
  destruct (ListTfModules_finds slash parent (fun _ => inl sample_tree) "mods"
              sample_tree eq_refl eq_refl) as (found & log & Hrun & Hfound).
  exists found, log. split; [exact Hrun|].
  rewrite !Hfound. by vm_compute.
Defined.

Lemma ListTfModules_fails_witness :
  exists e log,
    ListTfModules (fun _ => inl locked_tree) slash parent "mods"
    = ((None, Some e), log).
Proof.
  apply (ListTfModules_fails slash parent (fun _ => inl locked_tree) "mods").
  reflexivity.
Defined.

(** ** Sources without a query *)

Lemma Node_rect' (P : Regexp.Node -> Prop) :
  (forall c, P (Regexp.Lit c)) ->
  P Regexp.AnyCharNotNL ->
  (forall negated ranges, P (Regexp.CharClass negated ranges)) ->
  (forall idx sub, Forall P sub -> P (Regexp.Capture idx sub)) ->
  (forall sub, P sub -> P (Regexp.Star sub)) ->
  (forall sub, P sub -> P (Regexp.Plus sub)) ->
  (forall sub, P sub -> P (Regexp.Quest sub)) ->
  forall n, P n.
Proof.
  intros Hlit Hany Hclass Hcap Hstar Hplus Hquest. fix IH 1.
  intros [c| |negated ranges|idx sub|sub|sub|sub].
  - apply Hlit.
  - apply Hany.
  - apply Hclass.
  - apply Hcap. induction sub as [|n sub IHsub]; constructor; [apply IH|exact IHsub].
  - apply Hstar, IH.
  - apply Hplus, IH.
  - apply Hquest, IH.
Qed.

Section Closed.
Context {R : Type}.
(** A property of the input that its tails inherit. *)
Variable Inv : string -> Prop.
Hypothesis Inv_tail : forall c s, Inv (String c s) -> Inv s.

Lemma step_fails ok s pos caps (k : string -> nat -> Regexp.Caps -> option R) :
  fails_on Inv k -> Inv s -> Regexp.step ok s pos caps k = None.
Proof.
  intros Hk Hs. destruct s as [|c s]; [done|]. simpl.
  destruct (ok c); [|done]. apply Hk. by eapply Inv_tail.
Qed.

Lemma exec_fails n :
  forall s pos caps (k : string -> nat -> Regexp.Caps -> option R),
    fails_on Inv k -> Inv s -> Regexp.exec n s pos caps k = None.
Proof.
  induction n as [c| |negated ranges|idx sub IH|sub IH|sub IH|sub IH]
    using Node_rect'; intros s pos caps k Hk Hs.
  - by apply step_fails.
  - by apply step_fails.
  - by apply step_fails.
  - cbn [Regexp.exec].
    match goal with
    | |- _ sub s pos caps ?k0 = None =>
        assert (Hk' : fails_on Inv k0) by (intros s' p' caps' Hs'; by apply Hk);
        revert Hk'; generalize k0
    end.
    clear Hk. intros k' Hk'. revert s pos caps k' Hk' Hs.
    induction IH as [|n sub Hn _ IHsub]; intros s pos caps k' Hk' Hs;
      [by apply Hk'|].
    apply Hn; [|done]. intros s' p' caps' Hs'. by apply IHsub.
  - cbn [Regexp.exec]. rewrite IH; [simpl; by apply Hk| |done].
    intros s' pos' caps' Hs'. destruct (pos' =? pos)%nat; [done|].
    generalize (String.length s). intros fuel. clear Hs. revert s' pos' caps' Hs'.
    induction fuel as [|fuel IHfuel]; intros s' pos' caps' Hs'; [by apply Hk|].
    rewrite IH; [simpl; by apply Hk| |done].
    intros s2 pos2 caps2 Hs2. destruct (pos2 =? pos')%nat; [done|]. by apply IHfuel.
  - cbn [Regexp.exec]. apply IH; [|done]. intros s' pos' caps' Hs'.
    rewrite IH; [simpl; by apply Hk| |done].
    intros s2 pos2 caps2 Hs2. destruct (pos2 =? pos')%nat; [done|].
    generalize (String.length s'). intros fuel. revert s2 pos2 caps2 Hs2.
    induction fuel as [|fuel IHfuel]; intros s2 pos2 caps2 Hs2; [by apply Hk|].
    rewrite IH; [simpl; by apply Hk| |done].
    intros s3 pos3 caps3 Hs3. destruct (pos3 =? pos2)%nat; [done|]. by apply IHfuel.
  - cbn [Regexp.exec]. rewrite IH by done. simpl. by apply Hk.
Qed.
End Closed.

Lemma mentions_tail q c s : mentions q (String c s) = false -> mentions q s = false.
Proof. simpl. by intros [_ ?]%orb_false_elim. Qed.

Lemma match_at_without_query re rest s pos :
  Regexp.prog re = Regexp.Capture 1 [Regexp.Plus Regexp.AnyCharNotNL]
                   :: Regexp.Lit "?" :: rest ->
  mentions "?" s = false -> Regexp.match_at re s pos = None.
Proof.
  intros Hprog Hs. unfold Regexp.match_at. rewrite Hprog. cbn [Regexp.exec_seq].
  apply (exec_fails (fun s => mentions "?" s = false) (mentions_tail "?")); [|done].
  intros s' pos' caps' Hs'. cbn [Regexp.exec_seq Regexp.exec].
  destruct s' as [|c' s']; [done|]. simpl in Hs'. simpl.
  apply orb_false_elim in Hs' as [Hc _]. by rewrite Hc.
Qed.

Lemma search_without_query re rest s pos :
  Regexp.prog re = Regexp.Capture 1 [Regexp.Plus Regexp.AnyCharNotNL]
                   :: Regexp.Lit "?" :: rest ->
  mentions "?" s = false -> Regexp.search re s pos = None.
Proof.
  intros Hprog. revert pos. induction s as [|c s IH]; intros pos Hs.
  - cbn [Regexp.search]. by rewrite (match_at_without_query re rest).
  - cbn [Regexp.search]. rewrite (match_at_without_query re rest) by done.
    apply IH. by eapply mentions_tail.
Qed.

(** A module source without a question mark (a local path, a registry
    address, a repository without a query) is returned whole as the path,
    with an empty version: the pattern looked for asks for a question
    mark. *)
Theorem parseModuleSource_without_query a source :
  quoted_literal a = Some source ->
  mentions "?" source = false ->
  parseModuleSource a = Ok (source, "").
Proof.
  unfold parseModuleSource, quoted_literal.
  destruct (MustCompile _) as [re|] eqn:Hre; [|by vm_compute in Hre].
  destruct a as [tokens]. simpl.
  destruct tokens as [|[t0 b0] [|[t1 b1] [|[t2 b2] [|t3 tokens]]]]; try done.
  all: destruct t0; try done.
  all: destruct t1; try done.
  all: destruct t2; try done.
  intros [= ->] Hsource. simpl. unfold Regexp.FindStringSubmatch.
  erewrite search_without_query; [done| |done].
  injection Hre as <-. by vm_compute.
Qed.

Lemma parseModuleSource_without_query_witness :
  parseModuleSource (string_literal "hashicorp/consul/aws")
  = Ok ("hashicorp/consul/aws", "").
Proof.
  apply (parseModuleSource_without_query (string_literal "hashicorp/consul/aws")
           "hashicorp/consul/aws" eq_refl eq_refl).
Defined.

(** ** Counts of a looser pattern *)

Lemma drop_string_drop a b s :
  drop_string a (drop_string b s) = drop_string (b + a) s.
Proof.
  revert s. induction b as [|b IH]; intros s; [done|].
  destruct s as [|c s]; [by destruct a|]. simpl. apply IH.
Qed.

(** Dropping characters in front loses at most one of the occurrences the
    scan finds as long as no more than [width] are dropped, and never
    adds one. *)
Lemma count_occurrences_suffix here width n :
  forall t, (String.length t < n)%nat ->
    (forall j, (j <= width)%nat ->
       (count_occurrences here width t
        <= S (count_occurrences here width (drop_string j t)))%nat)
    /\ (forall j, (count_occurrences here width (drop_string j t)
                   <= count_occurrences here width t)%nat).
Proof.
  induction n as [|n IH]; intros t Hlen; [lia|].
  destruct t as [|c t'].
  { split; intros j; destruct j; simpl; simp count_occurrences; lia. }
  simpl in Hlen. assert (Hlen' : (String.length t' < n)%nat) by lia.
  destruct (IH t' Hlen') as [Hdrop Hkeep].
  assert (Htail : (count_occurrences here width t'
                   <= count_occurrences here width (String c t'))%nat).
  { rewrite (count_occurrences_equation_2 here width c t').
    destruct (here (String c t')); [|done].
    apply (Hdrop (width - 1)%nat). lia. }
  split.
  - intros [|j] Hj; [simpl; lia|]. cbn [drop_string].
    rewrite (count_occurrences_equation_2 here width c t').
    destruct (here (String c t')).
    + assert (Hshort : (String.length (drop_string j t') < n)%nat)
        by (pose proof (drop_string_length j t'); lia).
      destruct (IH _ Hshort) as [_ Hkeep'].
      specialize (Hkeep' (width - 1 - j)%nat).
      rewrite drop_string_drop in Hkeep'.
      replace (j + (width - 1 - j))%nat with (width - 1)%nat in Hkeep' by lia. lia.
    + apply Hdrop. lia.
  - intros [|j]; [done|]. cbn [drop_string]. specialize (Hkeep j). lia.
Qed.

(** A test that holds wherever another one holds finds at least as many
    occurrences of the same width. *)
Lemma count_occurrences_mono here1 here2 width s :
  (forall t, here1 t = true -> here2 t = true) ->
  (count_occurrences here1 width s <= count_occurrences here2 width s)%nat.
Proof.
  intros Himp. remember (S (String.length s)) as n eqn:Hn.
  assert (Hlen : (String.length s < n)%nat) by lia. clear Hn.
  revert s Hlen. induction n as [|n IH]; intros s Hlen; [lia|].
  destruct s as [|c s']; [by simp count_occurrences|]. simpl in Hlen.
  rewrite (count_occurrences_equation_2 here1), (count_occurrences_equation_2 here2).
  assert (Hshort : (String.length (drop_string (width - 1) s') < n)%nat)
    by (pose proof (drop_string_length (width - 1) s'); lia).
  destruct (here1 (String c s')) eqn:H1.
  - rewrite (Himp _ H1). specialize (IH _ Hshort). lia.
  - destruct (here2 (String c s')).
    + assert (Hs' : (String.length s' < S n)%nat) by lia.
      destruct (count_occurrences_suffix here2 width (S n) s' Hs') as [Hdrop _].
      specialize (Hdrop (width - 1)%nat). specialize (IH s'). lia.
    + apply IH. lia.
Qed.

Lemma atoms_match_lits_append lit rest t :
  atoms_match (lits lit ++ rest) (lit +:+ t) = atoms_match rest t.
Proof.
  rewrite atoms_match_lits, drop_string_append.
  pose proof (occurs_here_append lit t) as Hp. unfold occurs_here in Hp.
  by rewrite Hp.
Qed.

(** The count stored for a data lookup is never below the number of
    places where its key stands as literal text: the dots of the key are
    read as any character, which can only add matches. *)
Theorem data_count_at_least_literal content data_type name :
  plain data_type = true -> plain name = true ->
  let key := "data." +:+ data_type +:+ "." +:+ name in
  exists n, countPattern content key = Ok n
            /\ (Z.of_nat (count_literal key content) <= n)%Z.
Proof.
  intros Ht Hn key. unfold countPattern, key.
  rewrite (Compile_data_key data_type name Ht Hn).
  eexists. split; [reflexivity|]. apply inj_le.
  set (prog := lits "data" ++ Regexp.AnyCharNotNL :: lits data_type
               ++ Regexp.AnyCharNotNL :: lits name).
  unfold Regexp.FindAllStringIndex.
  rewrite (find_all_atoms (Regexp.mkRegexp prog 0)); cycle 1.
  { unfold prog. cbn [Regexp.prog].
    rewrite forallb_app, forallb_atom_lits. cbn [forallb is_atom andb].
    rewrite forallb_app, forallb_atom_lits. cbn [forallb is_atom andb].
    apply forallb_atom_lits. }
  { done. }
  cbn [Regexp.prog drop_string]. unfold count_literal.
  replace (length prog)
    with (String.length ("data." +:+ data_type +:+ "." +:+ name)); cycle 1.
  { unfold prog. rewrite !length_app. simpl. rewrite !length_app. simpl.
    rewrite !length_lits. cbv [String.append]. fold String.append. simpl.
    rewrite length_append. simpl. lia. }
  apply count_occurrences_mono. intros t Hhere.
  apply prefix_split in Hhere as [u ->]. unfold prog.
  change ("data." +:+ data_type +:+ "." +:+ name)
    with ("data" +:+ "." +:+ data_type +:+ "." +:+ name).
  rewrite !append_assoc, atoms_match_lits_append.
  change ("." +:+ data_type +:+ "." +:+ name +:+ u)
    with (String "." (data_type +:+ "." +:+ name +:+ u)).
  cbn [atoms_match atom_ok]. simpl negb. cbn [andb].
  rewrite atoms_match_lits_append.
  change ("." +:+ name +:+ u) with (String "." (name +:+ u)).
  cbn [atoms_match atom_ok]. simpl negb. cbn [andb].
  rewrite <- (app_nil_r (lits name)), atoms_match_lits_append. done.
Qed.

Lemma data_count_at_least_literal_witness :
  exists n,
    countPattern (nl +:+ data_text) "data.null_data_source.values" = Ok n
    /\ (Z.of_nat (count_literal "data.null_data_source.values" (nl +:+ data_text))
        <= n)%Z.
Proof.
  apply (data_count_at_least_literal (nl +:+ data_text) "null_data_source" "values"
           eq_refl eq_refl).
Defined.

(** ** Names that begin with another name *)

Lemma count_occurrences_mono_width here1 here2 width1 width2 s :
  (width2 <= width1)%nat ->
  (forall t, here1 t = true -> here2 t = true) ->
  (count_occurrences here1 width1 s <= count_occurrences here2 width2 s)%nat.
Proof.
  intros Hwidth Himp. remember (S (String.length s)) as n eqn:Hn.
  assert (Hlen : (String.length s < n)%nat) by lia. clear Hn.
  revert s Hlen. induction n as [|n IH]; intros s Hlen; [lia|].
  destruct s as [|c s']; [by simp count_occurrences|]. simpl in Hlen.
  rewrite (count_occurrences_equation_2 here1), (count_occurrences_equation_2 here2).
  destruct (here1 (String c s')) eqn:H1.
  - rewrite (Himp _ H1).
    assert (Hshort : (String.length (drop_string (width1 - 1) s') < n)%nat)
      by (pose proof (drop_string_length (width1 - 1) s'); lia).
    specialize (IH _ Hshort).
    assert (Hshort2 : (String.length (drop_string (width2 - 1) s') < S n)%nat)
      by (pose proof (drop_string_length (width2 - 1) s'); lia).
    destruct (count_occurrences_suffix here2 width2 (S n) _ Hshort2) as [_ Hkeep].
    specialize (Hkeep ((width1 - 1) - (width2 - 1))%nat).
    rewrite drop_string_drop in Hkeep.
    replace (width2 - 1 + (width1 - 1 - (width2 - 1)))%nat with (width1 - 1)%nat
      in Hkeep by lia.
    lia.
  - destruct (here2 (String c s')).
    + assert (Hs' : (String.length s' < S n)%nat) by lia.
      destruct (count_occurrences_suffix here2 width2 (S n) s' Hs') as [Hdrop _].
      specialize (Hdrop (width2 - 1)%nat). specialize (IH s'). lia.
    + apply IH. lia.
Qed.

(** The count of a module includes the references to every module whose
    name begins with its name: whatever the text, the module [<name>] is
    counted at least as often as the module [<name><suffix>]. *)
Theorem module_count_includes_longer_names content name suffix :
  plain name = true -> plain suffix = true ->
  exists n_longer n,
    countPattern content (module_pattern (name +:+ suffix)) = Ok n_longer
    /\ countPattern content (module_pattern name) = Ok n
    /\ (n_longer <= n)%Z.
Proof.
  intros Hname Hsuffix.
  assert (Hlonger : plain (name +:+ suffix) = true)
    by (by rewrite plain_app, Hname, Hsuffix).
  eexists _, _. split; [by apply countPattern_module|].
  split; [by apply countPattern_module|].
  rewrite !count_of_module by done. apply inj_le. unfold count_literal.
  apply count_occurrences_mono_width.
  - rewrite <- (append_assoc "module." name suffix),
      (length_append ("module." +:+ name)). lia.
  - intros t Hhere. apply prefix_split in Hhere as [u ->].
    rewrite <- (append_assoc "module." name suffix),
      (append_assoc ("module." +:+ name)).
    apply occurs_here_append.
Qed.

Lemma module_count_includes_longer_names_witness :
  exists n_longer n,
    countPattern (nl +:+ foo_text) (module_pattern ("foo" +:+ "bar")) = Ok n_longer
    /\ countPattern (nl +:+ foo_text) (module_pattern "foo") = Ok n
    /\ (n_longer <= n)%Z.
Proof.
  apply (module_count_includes_longer_names (nl +:+ foo_text) "foo" "bar"
           eq_refl eq_refl).
Defined.

(** A hyphen is not a word character, so the boundary behind the name of
    a variable or of a local does not tell [<name>] from [<name>-<more>]:
    each reference to the longer name is counted for the shorter one as
    well. *)
Theorem hyphen_counts_for_shorter_name content name more :
  plain name = true -> plain more = true ->
  (exists n_longer n,
     countPattern content (variable_pattern (name +:+ "-" +:+ more)) = Ok n_longer
     /\ countPattern content (variable_pattern name) = Ok n
     /\ (n_longer <= n)%Z)
  /\ (exists n_longer n,
        countPattern content (local_pattern (name +:+ "-" +:+ more)) = Ok n_longer
        /\ countPattern content (local_pattern name) = Ok n
        /\ (n_longer <= n)%Z).
Proof.
  intros Hname Hmore.
  assert (Hlonger : plain (name +:+ "-" +:+ more) = true)
    by (by rewrite !plain_app, Hname, Hmore).
  assert (Hle : forall prefix,
            (count_bounded (prefix +:+ name +:+ "-" +:+ more) content
             <= count_bounded (prefix +:+ name) content)%nat).
  { intros prefix. unfold count_bounded. apply count_occurrences_mono_width.
    - rewrite <- (append_assoc prefix), (length_append (prefix +:+ name)). lia.
    - intros t [Hhere _]%andb_prop. apply prefix_split in Hhere as [u ->].
      rewrite <- (append_assoc prefix name), (append_assoc (prefix +:+ name)).
      change ("-" +:+ more) with (String "-" more).
      change (String "-" more +:+ u) with (String "-" (more +:+ u)).
      by apply occurs_bounded_append. }
  split.
  - eexists _, _. split; [by apply countPattern_variable|].
    split; [by apply countPattern_variable|].
    rewrite !count_of_variable by done. apply inj_le, (Hle "var.").
  - eexists _, _. split; [by apply countPattern_local|].
    split; [by apply countPattern_local|].
    rewrite !count_of_local by done. apply inj_le, (Hle "local.").
Qed.

Lemma hyphen_counts_for_shorter_name_witness :
  exists n_longer n,
    countPattern "x = var.region-id " (variable_pattern ("region" +:+ "-" +:+ "id"))
    = Ok n_longer
    /\ countPattern "x = var.region-id " (variable_pattern "region") = Ok n
    /\ (n_longer <= n)%Z.
Proof.
  apply (proj1 (hyphen_counts_for_shorter_name "x = var.region-id " "region" "id"
                  eq_refl eq_refl)).
Defined.

(** ** Labels that are not patterns *)


Section Unescaped.
Variable ReadDir : string -> list string * option error.
Variable ReadFile : string -> string * option error.
Variable Join : string -> string -> string.
Variable ParseConfig : string -> File + string.

End Unescaped.


(** ** What a match says about the input *)

Section Calls.
Context {R : Type}.
Implicit Types k : string -> nat -> Regexp.Caps -> option R.

Lemma step_calls ok s pos caps k r :
  Regexp.step ok s pos caps k = Some r ->
  exists c s', s = String c s' /\ ok c = true /\ k s' (S pos) caps = Some r.
Proof.
  destruct s as [|c s']; [done|]. simpl. destruct (ok c) eqn:Hc; [|done].
  intros Hk. by exists c, s'.
Qed.

(** A node that matches calls its continuation on what is left of the
    input, at the offset behind what it took, with the captures of its
    groups put in front. *)
Lemma exec_calls n :
  forall s pos caps k r,
    Regexp.exec n s pos caps k = Some r ->
    exists t s' new,
      s = t +:+ s'
      /\ Forall (fun e => e.1 ∈ groups n) new
      /\ group_first n pos t new
      /\ k s' (pos + String.length t)%nat (new ++ caps) = Some r.
Proof.
  induction n as [c| |negated ranges|idx sub IH|sub IH|sub IH|sub IH]
    using Node_rect'; intros s pos caps k r Hrun.
  - apply step_calls in Hrun as (c' & s' & -> & _ & Hk).
    exists (String c' ""), s', []. rewrite Nat.add_1_r.
    split; [reflexivity|]. split; [apply Forall_nil_2|]. split; [exact I|exact Hk].
  - apply step_calls in Hrun as (c' & s' & -> & _ & Hk).
    exists (String c' ""), s', []. rewrite Nat.add_1_r.
    split; [reflexivity|]. split; [apply Forall_nil_2|]. split; [exact I|exact Hk].
  - apply step_calls in Hrun as (c' & s' & -> & _ & Hk).
    exists (String c' ""), s', []. rewrite Nat.add_1_r.
    split; [reflexivity|]. split; [apply Forall_nil_2|]. split; [exact I|exact Hk].
  - cbn [Regexp.exec] in Hrun. cbn [groups].
    match type of Hrun with
    | ?seq sub s pos caps _ = Some r =>
        assert (Hseq : forall s1 p1 caps1 k1 r1,
                  seq sub s1 p1 caps1 k1 = Some r1 ->
                  exists t s' new,
                    s1 = t +:+ s'
                    /\ Forall (fun e => e.1 ∈
                         (fix inside (ns : list Regexp.Node) : list nat :=
                            match ns with
                            | [] => []
                            | n' :: ns' => groups n' ++ inside ns'
                            end) sub) new
                    /\ k1 s' (p1 + String.length t)%nat (new ++ caps1) = Some r1)
    end.
    { clear Hrun s pos caps k r.
      induction IH as [|n sub Hn _ IHsub]; intros s p caps k0 r Hrun.
      - exists "", s, []. rewrite Nat.add_0_r.
        split; [reflexivity|]. split; [apply Forall_nil_2|exact Hrun].
      - apply Hn in Hrun as (t1 & s1 & new1 & -> & Hnew1 & _ & Hrun).
        apply IHsub in Hrun as (t2 & s2 & new2 & -> & Hnew2 & Hrun).
        exists (t1 +:+ t2), s2, (new2 ++ new1).
        rewrite append_assoc, length_append, Nat.add_assoc, <- app_assoc.
        split; [done|]. split; [|done].
        apply Forall_app. split.
        + eapply Forall_impl; [exact Hnew2|]. intros e He. simpl.
          apply elem_of_app. by right.
        + eapply Forall_impl; [exact Hnew1|]. intros e He. simpl.
          apply elem_of_app. by left. }
    apply Hseq in Hrun.
    destruct Hrun as (t & s' & new & -> & Hnew & Hk).
    exists t, s', ((idx, (pos, (pos + String.length t)%nat)) :: new).
    split; [done|]. split; [|split; [by eexists|done]].
    constructor; [by left|].
    eapply Forall_impl; [exact Hnew|]. intros e He. by right.
  - cbn [Regexp.exec] in Hrun. cbn [groups].
    match type of Hrun with
    | Regexp.orelse (Regexp.exec sub s pos caps
        (fun s' pos' caps' => if _ then None else ?rounds _ s' pos' caps')) _ = Some r =>
        assert (Hrounds : forall fuel s1 p1 caps1 r1,
                  rounds fuel s1 p1 caps1 = Some r1 ->
                  exists t s' new,
                    s1 = t +:+ s'
                    /\ Forall (fun e => e.1 ∈ groups sub) new
                    /\ k s' (p1 + String.length t)%nat (new ++ caps1) = Some r1);
        [|change (rounds (S (String.length s)) s pos caps = Some r) in Hrun]
    end.
    { clear Hrun s pos caps r.
      induction fuel as [|fuel IHfuel]; intros s p caps r Hrun.
      - exists "", s, []. rewrite Nat.add_0_r.
        split; [reflexivity|]. split; [apply Forall_nil_2|exact Hrun].
      - cbn beta iota in Hrun. unfold Regexp.orelse in Hrun.
        match type of Hrun with
        | match ?e with _ => _ end = _ => destruct e as [r'|] eqn:Hsub
        end.
        + injection Hrun as ->.
          apply IH in Hsub as (t1 & s1 & new1 & -> & Hnew1 & _ & Hsub).
          destruct (_ =? _)%nat; [done|].
          apply IHfuel in Hsub as (t2 & s2 & new2 & -> & Hnew2 & Hsub).
          exists (t1 +:+ t2), s2, (new2 ++ new1).
          rewrite append_assoc, length_append, Nat.add_assoc, <- app_assoc.
          split; [done|]. split; [|done]. by apply Forall_app.
        + exists "", s, []. rewrite Nat.add_0_r.
          split; [reflexivity|]. split; [apply Forall_nil_2|exact Hrun]. }
    apply Hrounds in Hrun as (t & s' & new & -> & Hnew & Hk).
    by exists t, s', new.
  - cbn [Regexp.exec] in Hrun. cbn [groups].
    apply IH in Hrun as (t1 & s1 & new1 & -> & Hnew1 & _ & Hrun).
    match type of Hrun with
    | Regexp.orelse (Regexp.exec sub _ _ _
        (fun s' pos' caps' => if _ then None else ?rounds _ s' pos' caps')) _ = Some r =>
        assert (Hrounds : forall fuel s1 p1 caps1 r1,
                  rounds fuel s1 p1 caps1 = Some r1 ->
                  exists t s' new,
                    s1 = t +:+ s'
                    /\ Forall (fun e => e.1 ∈ groups sub) new
                    /\ k s' (p1 + String.length t)%nat (new ++ caps1) = Some r1);
        [|change (rounds (S (String.length s1)) s1 (pos + String.length t1)%nat
                    (new1 ++ caps) = Some r) in Hrun]
    end.
    { clear Hrun s1 pos caps r Hnew1.
      induction fuel as [|fuel IHfuel]; intros s p caps r Hrun.
      - exists "", s, []. rewrite Nat.add_0_r.
        split; [reflexivity|]. split; [apply Forall_nil_2|exact Hrun].
      - cbn beta iota in Hrun. unfold Regexp.orelse in Hrun.
        match type of Hrun with
        | match ?e with _ => _ end = _ => destruct e as [r'|] eqn:Hsub
        end.
        + injection Hrun as ->.
          apply IH in Hsub as (t2 & s2 & new2 & -> & Hnew2 & _ & Hsub).
          destruct (_ =? _)%nat; [done|].
          apply IHfuel in Hsub as (t3 & s3 & new3 & -> & Hnew3 & Hsub).
          exists (t2 +:+ t3), s3, (new3 ++ new2).
          rewrite append_assoc, length_append, Nat.add_assoc, <- app_assoc.
          split; [done|]. split; [|done]. by apply Forall_app.
        + exists "", s, []. rewrite Nat.add_0_r.
          split; [reflexivity|]. split; [apply Forall_nil_2|exact Hrun]. }
    apply Hrounds in Hrun as (t2 & s2 & new2 & -> & Hnew2 & Hk).
    exists (t1 +:+ t2), s2, (new2 ++ new1).
    rewrite append_assoc, length_append, Nat.add_assoc, <- app_assoc.
    split; [done|]. split; [by apply Forall_app|]. done.
  - cbn [Regexp.exec] in Hrun. cbn [groups]. unfold Regexp.orelse in Hrun.
    destruct (Regexp.exec sub s pos caps k) as [r'|] eqn:Hsub.
    + injection Hrun as ->.
      apply IH in Hsub as (t & s' & new & -> & Hnew & _ & Hk).
      by exists t, s', new.
    + exists "", s, []. rewrite Nat.add_0_r.
      split; [reflexivity|]. split; [apply Forall_nil_2|]. split; [exact I|exact Hrun].
Qed.
End Calls.
Lemma search_sound re s pos b e caps :
  Regexp.search re s pos = Some (b, (e, caps)) ->
  exists pre s', s = pre +:+ s' /\ b = (pos + String.length pre)%nat
                 /\ Regexp.match_at re s' b = Some (e, caps).
Proof.
  revert pos. induction s as [|c s IH]; intros pos Hsearch.
  - cbn [Regexp.search] in Hsearch.
    destruct (Regexp.match_at re "" pos) as [[e' caps']|] eqn:Hm; [|done].
    injection Hsearch as <- <- <-. exists "", "". by rewrite Nat.add_0_r.
  - cbn [Regexp.search] in Hsearch.
    destruct (Regexp.match_at re (String c s) pos) as [[e' caps']|] eqn:Hm.
    + injection Hsearch as <- <- <-. exists "", (String c s). by rewrite Nat.add_0_r.
    + apply IH in Hsearch as (pre & s' & -> & -> & Hm').
      exists (String c pre), s'. simpl. by rewrite Nat.add_succ_r.
Qed.

Lemma substring_head b c :
  substring 0 (String.length b) (b +:+ c) = b.
Proof.
  induction b as [|x b IH]; [by destruct c|].
  change (String x b +:+ c) with (String x (b +:+ c)). simpl. by rewrite IH.
Qed.

Lemma substring_middle a b c :
  substring (String.length a) (String.length b) (a +:+ b +:+ c) = b.
Proof.
  induction a as [|x a IH]; [exact (substring_head b c)|].
  change (String x a +:+ b +:+ c) with (String x (a +:+ b +:+ c)). by simpl.
Qed.

Lemma slice_middle a b c :
  slice (a +:+ b +:+ c) (String.length a) (String.length a + String.length b) = b.
Proof.
  unfold slice.
  replace (String.length a + String.length b - String.length a)%nat
    with (String.length b) by lia.
  apply substring_middle.
Qed.

Lemma cap_lookup_skip i (new rest : Regexp.Caps) :
  Forall (fun e => e.1 <> i) new ->
  Regexp.cap_lookup i (new ++ rest) = Regexp.cap_lookup i rest.
Proof.
  induction 1 as [|[j se] new Hj _ IH]; [done|]. simpl in *.
  destruct (Nat.eqb_spec i j); [congruence|done].
Qed.

Lemma Lit_calls {R} c s pos caps (k : string -> nat -> Regexp.Caps -> option R) r :
  Regexp.exec (Regexp.Lit c) s pos caps k = Some r ->
  exists s', s = String c s' /\ k s' (S pos) caps = Some r.
Proof.
  intros Hrun. apply step_calls in Hrun as (c' & s' & -> & Hc & Hk).
  apply Ascii.eqb_eq in Hc as ->. by exists s'.
Qed.

(** What [parseModuleSource] returns for a quoted literal stands in the
    literal: either the path is the whole literal and the version is
    empty, or the literal holds the path, then [?ref=v], then the
    version. *)
Theorem parseModuleSource_parts a source path version :
  quoted_literal a = Some source ->
  parseModuleSource a = Ok (path, version) ->
  (path = source /\ version = "")
  \/ exists pre post, source = pre +:+ path +:+ "?ref=v" +:+ version +:+ post.
Proof.
  unfold parseModuleSource, quoted_literal.
  destruct (MustCompile _) as [re|] eqn:Hre; [|by vm_compute in Hre].
  destruct a as [tokens]. simpl.
  destruct tokens as [|[t0 b0] [|[t1 b1] [|[t2 b2] [|t3 tokens]]]]; try done.
  all: destruct t0; try done.
  all: destruct t1; try done.
  all: destruct t2; try done.
  intros [= ->]. simpl. unfold Regexp.FindStringSubmatch.
  destruct (Regexp.search re source 0) as [[b [e caps]]|] eqn:Hsearch;
    [|intros [= <- <-]; by left].
  vm_compute in Hre. injection Hre as <-.
  apply search_sound in Hsearch as (pre & s' & -> & -> & Hm).
  unfold Regexp.match_at in Hm. cbn [Regexp.prog Regexp.exec_seq] in Hm.
  apply exec_calls in Hm as (t1 & s1 & new1 & -> & Hnew1 & [inner1 ->] & Hm).
  do 6 (apply Lit_calls in Hm as (? & -> & Hm)).
  apply exec_calls in Hm as (t2 & s2 & new2 & -> & Hnew2 & [inner2 ->] & Hm).
  injection Hm as <- <-.
  cbn [Regexp.numCap seq map length Nat.eqb]. cbn [index lookup list_lookup].
  apply Forall_cons in Hnew2 as [_ Hinner2].
  assert (Hskip : Forall (fun e : nat * (nat * nat) => e.1 <> 1%nat) inner2).
  { eapply Forall_impl; [exact Hinner2|]. intros [i se] He Heq.
    cbn in He, Heq. subst i. rewrite !elem_of_cons, elem_of_nil in He.
    destruct He as [He|[He|[He|He]]]; done. }
  cbn [Regexp.cap_lookup Nat.eqb]. rewrite cap_lookup_skip by done.
  cbn [Regexp.cap_lookup Nat.eqb].
  set (front := pre +:+ t1 +:+ "?ref=v").
  assert (Hfront : String.length front
                   = S (S (S (S (S (S (String.length pre + String.length t1)))))))
    by (unfold front; rewrite !length_append; simpl; lia).
  assert (Hsource : pre +:+ t1 +:+ String "?" (String "r" (String "e"
                      (String "f" (String "=" (String "v" (t2 +:+ s2))))))
                    = front +:+ t2 +:+ s2)
    by (unfold front; by rewrite !append_assoc).
  rewrite slice_middle.
  replace (S (S (S (S (S (S (String.length pre + String.length t1
                              + String.length t2)))))))
    with (String.length front + String.length t2)%nat by lia.
  rewrite <- Hfront, Hsource, slice_middle.
  intros [= <- <-]. right. exists pre, s2. by rewrite <- Hsource.
Qed.

Lemma parseModuleSource_parts_witness :
  ("git::https://example.com/mod.git" = "git::https://example.com/mod.git?ref=v1.2.3"
   /\ "1.2.3" = "")
  \/ exists pre post,
       "git::https://example.com/mod.git?ref=v1.2.3"
       = pre +:+ "git::https://example.com/mod.git" +:+ "?ref=v" +:+ "1.2.3" +:+ post.
Proof.
  apply (parseModuleSource_parts
           (string_literal "git::https://example.com/mod.git?ref=v1.2.3")
           "git::https://example.com/mod.git?ref=v1.2.3"
           "git::https://example.com/mod.git" "1.2.3" eq_refl).
  by vm_compute.
Defined.

(** ** The filtered list of variables *)



(** ** Counts are not negative *)

Lemma NewModuleUsage_nonneg_witness :
  exists m w',
    construct region_text region_blocks = Ok ((Some m, None), w')
    /\ forall l, l ∈ [Variables m; Locals m; Modules m] ->
         exists items, maps w' !! l = Some items
                       /\ map_Forall (fun _ count => (0 <= count)%Z) items.
Proof.
  apply (NewModuleUsage_nonneg one_file (reads region_text) slash
           (parses_to region_blocks) "mod" (mkWorld ∅ []) (nl +:+ region_text)
           (mkFile (nl +:+ region_text) region_blocks) eq_refl eq_refl eq_refl).
Defined.
